(** * go-qemu: the machine descriptor and its launcher (machine.go)

    A shallow embedding of [machine.go]: the [Machine] descriptor with its
    attach operations, the rendering of a descriptor into the argument vector
    of [qemu-system-<arch>], and the launch sequence of [Start] (spawn, a
    background waiter, a 50ms sleep and a non-blocking receive).

    Methods with a pointer receiver [*Machine] are computations in a state
    monad over [Machine]; the two goroutines of [Start] are a small
    interleaving machine driven by a schedule. *)

From Stdlib Require Import ZArith NArith List String Ascii Bool Lia.
From Stdlib Require Import DecimalString DecimalPos DecimalN DecimalZ.
Import ListNotations.

Local Open Scope list_scope.
Local Open Scope string_scope.

(* ================================================================= *)
(** * Go library functions used by machine.go *)

Module strconv.

(** [strconv.Itoa]: a signed integer in base 10, a leading '-' when
    negative, no leading zeros. *)
Definition Itoa (i : Z) : string := NilZero.string_of_int (Z.to_int i).

(** [strconv.FormatUint(n, 10)]: an unsigned integer in base 10. *)
Definition FormatUint10 (n : N) : string := NilZero.string_of_uint (N.to_uint n).

End strconv.

(** Go's [error] interface, observed through its [Error()] method; the nil
    error is [None] of [option error]. *)
Record error := mkError { Error : string }.

Module fmt.

(** [fmt.Sprintf("qemu-system-%s", arch)] *)
Definition Sprintf_qemu (arch : string) : string := "qemu-system-" ++ arch.

(** [fmt.Sprintf("%s:%d", addr, port)] *)
Definition Sprintf_addr_port (addr : string) (port : Z) : string :=
  addr ++ ":" ++ strconv.Itoa port.

(** [fmt.Sprintf("file=%s,format=%s", path, format)] *)
Definition Sprintf_drive (path format : string) : string :=
  "file=" ++ path ++ ",format=" ++ format.

(** [fmt.Sprintf("%s,id=%s", ty, id)] *)
Definition Sprintf_netdev (ty id : string) : string := ty ++ ",id=" ++ id.

(** [fmt.Sprintf("%s,ifname=%s", s, ifname)] *)
Definition Sprintf_ifname (s ifname : string) : string := s ++ ",ifname=" ++ ifname.

(** [fmt.Sprintf("virtio-net,netdev=%s", id)] *)
Definition Sprintf_device (id : string) : string := "virtio-net,netdev=" ++ id.

(** [fmt.Sprintf("%s,mac=%s", s, mac)] *)
Definition Sprintf_mac (s mac : string) : string := s ++ ",mac=" ++ mac.

(** [fmt.Sprintf("unix:%s,server,nowait", monitor)] *)
Definition Sprintf_qmp (monitor : string) : string :=
  "unix:" ++ monitor ++ ",server,nowait".

(** [fmt.Errorf("'qemu-system-%s': %s", arch, err)]: [%s] of an error is
    its [Error()] text. *)
Definition Errorf_qemu (arch : string) (err : error) : error :=
  mkError ("'qemu-system-" ++ arch ++ "': " ++ Error err).

End fmt.

(* ================================================================= *)
(** * The data model *)

(** [type Drive struct { Path, Format string }] *)
Module Drive.
Record t := mk { Path : string; Format : string }.
End Drive.

(** Modelled from the spec: the [Image] type is declared in another file of
    the package; [AddDriveImage] reads its [Path] and [Format] fields (the
    "external image descriptor (path + format fields)" of the spec). *)
Module Image.
Record t := mk { Path : string; Format : string }.
End Image.

(** Modelled from the spec: the [NetDev] type is declared in another file of
    the package; [Start] reads its fields [Type], [ID], [IfName] and [MAC],
    all strings ([NetworkInterface{kind, id, ifName, macAddress}] in the
    spec; an optional field is unset when it is the empty string). *)
Module NetDev.
Record t := mk { Type_ : string; ID : string; IfName : string; MAC : string }.
End NetDev.

(** [type Machine struct]. [Cores] is a Go [int] and [Memory] a [uint64];
    the code does no arithmetic on them, it only prints them, so they are
    the integers they denote. The two slices are lists ([nil] and the empty
    slice are both [[]]: the code only ranges over them, takes their length
    and appends), and a descriptor owns its slices: a second [Machine] value
    copied from it and sharing a backing array is not part of this model. *)
Record Machine := mkMachine {
  Cores   : Z;
  Memory  : N;
  cd      : string;
  vnc     : string;
  monitor : string;
  drives  : list Drive.t;
  ifaces  : list NetDev.t
}.

(* ================================================================= *)
(** * The receiver as state *)

(** A method on [*Machine] reads and writes the descriptor it is called on:
    a computation [St A] takes the descriptor and returns a value with the
    descriptor after the call. *)
Definition St (A : Type) : Type := Machine -> A * Machine.

Definition ret {A} (a : A) : St A := fun m => (a, m).

Definition bind {A B} (c : St A) (k : A -> St B) : St B :=
  fun m => let (a, m') := c m in k a m'.

(** Reading a field of the receiver. *)
Definition gets {A} (field : Machine -> A) : St A := fun m => (field m, m).

(** Assigning to the receiver. *)
Definition modify (f : Machine -> Machine) : St unit := fun m => (tt, f m).

Definition evalSt {A} (c : St A) (m : Machine) : A := fst (c m).
Definition execSt {A} (c : St A) (m : Machine) : Machine := snd (c m).

Notation "x <- c ;; k" := (bind c (fun x => k))
  (at level 61, c at next level, right associativity).

(** One call after another on the same receiver. *)
Definition seq (c1 c2 : St unit) : St unit := _ <- c1 ;; c2.
Notation "c1 >> c2" := (seq c1 c2) (at level 62, left associativity).

(** Field assignments [m.f = v]. *)
Definition set_Cores (v : Z) (m : Machine) : Machine :=
  mkMachine v (Memory m) (cd m) (vnc m) (monitor m) (drives m) (ifaces m).
Definition set_Memory (v : N) (m : Machine) : Machine :=
  mkMachine (Cores m) v (cd m) (vnc m) (monitor m) (drives m) (ifaces m).
Definition set_cd (v : string) (m : Machine) : Machine :=
  mkMachine (Cores m) (Memory m) v (vnc m) (monitor m) (drives m) (ifaces m).
Definition set_vnc (v : string) (m : Machine) : Machine :=
  mkMachine (Cores m) (Memory m) (cd m) v (monitor m) (drives m) (ifaces m).
Definition set_monitor (v : string) (m : Machine) : Machine :=
  mkMachine (Cores m) (Memory m) (cd m) (vnc m) v (drives m) (ifaces m).
Definition set_drives (v : list Drive.t) (m : Machine) : Machine :=
  mkMachine (Cores m) (Memory m) (cd m) (vnc m) (monitor m) v (ifaces m).
Definition set_ifaces (v : list NetDev.t) (m : Machine) : Machine :=
  mkMachine (Cores m) (Memory m) (cd m) (vnc m) (monitor m) (drives m) v.

(** Go's [append(s, x)] on a slice seen as a list. *)
Definition append {A} (s : list A) (x : A) : list A := (s ++ [x])%list.

(* ================================================================= *)
(** * The descriptor's operations *)

(** [func NewMachine(cores int, memory uint64) Machine]: the zero value of
    [Machine] with the two sizing fields and an empty drive slice. *)
Definition NewMachine (cores : Z) (memory : N) : Machine :=
  let machine := mkMachine 0 0 "" "" "" [] [] in
  let machine := set_Cores cores machine in
  let machine := set_Memory memory machine in
  let machine := set_drives [] machine in
  machine.

(** [func (m *Machine) AddCDRom(dev string)] *)
Definition AddCDRom (dev : string) : St unit :=
  modify (set_cd dev).

(** [func (m *Machine) AddDrive(d Drive)] *)
Definition AddDrive (d : Drive.t) : St unit :=
  ds <- gets drives ;;
  modify (set_drives (append ds d)).

(** [func (m *Machine) AddDriveImage(img Image)] *)
Definition AddDriveImage (img : Image.t) : St unit :=
  ds <- gets drives ;;
  modify (set_drives (append ds (Drive.mk (Image.Path img) (Image.Format img)))).

(** [func (m *Machine) AddNetworkDevice(netdev NetDev)] *)
Definition AddNetworkDevice (netdev : NetDev.t) : St unit :=
  ifs <- gets ifaces ;;
  modify (set_ifaces (append ifs netdev)).

(** [func (m *Machine) AddVNC(addr string, port int)] *)
Definition AddVNC (addr : string) (port : Z) : St unit :=
  modify (set_vnc (fmt.Sprintf_addr_port addr port)).

(** [func (m *Machine) AddMonitorUnix(dev string)] *)
Definition AddMonitorUnix (dev : string) : St unit :=
  modify (set_monitor dev).

(* ================================================================= *)
(** * Rendering: lines 81-129 of [Start] *)

(** The body of [for _, drive := range m.drives]. *)
Definition drive_loop_body (args : list string) (drive : Drive.t) : list string :=
  let args := append args "-drive" in
  let args := append args (fmt.Sprintf_drive (Drive.Path drive) (Drive.Format drive)) in
  args.

(** The body of [for _, iface := range m.ifaces]. *)
Definition iface_loop_body (args : list string) (iface : NetDev.t) : list string :=
  let s := fmt.Sprintf_netdev (NetDev.Type_ iface) (NetDev.ID iface) in
  let s := if (0 <? String.length (NetDev.IfName iface))%nat
           then fmt.Sprintf_ifname s (NetDev.IfName iface) else s in
  let args := append args "-netdev" in
  let args := append args s in
  let s := fmt.Sprintf_device (NetDev.ID iface) in
  let s := if (0 <? String.length (NetDev.MAC iface))%nat
           then fmt.Sprintf_mac s (NetDev.MAC iface) else s in
  let args := append args "-device" in
  let args := append args s in
  args.

(** The binary name and the argument slice handed to [exec.Command]. *)
Definition Start_render (arch : string) (kvm : bool) : St (string * list string) :=
  let qemu := fmt.Sprintf_qemu arch in
  cores <- gets Cores ;;
  memory <- gets Memory ;;
  let args := ["-smp"; strconv.Itoa cores; "-m"; strconv.FormatUint10 memory] in
  let args := if kvm then append args "-enable-kvm" else args in
  m_cd <- gets cd ;;
  let args := if (0 <? String.length m_cd)%nat
              then append (append args "-cdrom") m_cd else args in
  m_drives <- gets drives ;;
  let args := fold_left drive_loop_body m_drives args in
  m_ifaces <- gets ifaces ;;
  let args := if (List.length m_ifaces =? 0)%nat
              then append (append args "-net") "none" else args in
  let args := fold_left iface_loop_body m_ifaces args in
  m_vnc <- gets vnc ;;
  let args := if (0 <? String.length m_vnc)%nat
              then append (append args "-vnc") m_vnc else args in
  m_monitor <- gets monitor ;;
  let args := if (0 <? String.length m_monitor)%nat
              then append (append args "-qmp") (fmt.Sprintf_qmp m_monitor) else args in
  ret (qemu, args).

(** The rendered binary name and argument list of a descriptor. *)
Definition rendered_binary (m : Machine) (arch : string) (kvm : bool) : string :=
  fst (evalSt (Start_render arch kvm) m).
Definition rendered_args (m : Machine) (arch : string) (kvm : bool) : list string :=
  snd (evalSt (Start_render arch kvm) m).

(* ================================================================= *)
(** * Launching: lines 131-163 of [Start] *)

(** [*os.Process], known by its pid. *)
Record Process := mkProcess { Pid : Z }.

(** What [Start] puts into the [exec.Cmd] before starting it: the name and
    arguments given to [exec.Command] and [SysProcAttr.Setsid]. *)
Record Cmd := mkCmd { Name : string; Arg : list string; Setsid : bool }.

(** [cmd := exec.Command(qemu, args...)] with [cmd.SysProcAttr.Setsid = true]. *)
Definition Start_command (arch : string) (kvm : bool) : St Cmd :=
  rendered <- Start_render arch kvm ;;
  let (qemu, args) := rendered in
  let cmd := mkCmd qemu args false in
  let cmd := mkCmd (Name cmd) (Arg cmd) true in
  ret cmd.

(** [time.Millisecond], in nanoseconds, and the argument of [time.Sleep]. *)
Definition Millisecond : Z := 1000000.
Definition grace_interval : Z := 50 * Millisecond.

(** What [Start] returns: a [*os.Process] and an [error], each possibly nil. *)
Definition result : Type := option Process * option error.

(** Where the calling goroutine stands after [go func() ...]: before
    [time.Sleep], before [select], or returned. *)
Inductive fg_pc :=
| FgSleep
| FgSelect
| FgReturned (r : result).

(** Where the background goroutine stands: inside [cmd.Wait()], blocked on
    [errc <- v] ([errc] is unbuffered: the send completes only when the
    receiver takes the value), or finished. *)
Inductive bg_pc :=
| BgWait
| BgSend (v : option error)
| BgReturned.

(** The child process: running, or terminated with what [cmd.Wait()]
    reports for it (nil after a clean exit). *)
Inductive child_state :=
| Running
| Exited (w : option error).

(** What has happened so far, oldest first. *)
Inductive event :=
| EvChildExit (w : option error)
| EvWaitReturned (w : option error)
| EvSleep (ns : Z)
| EvReceive (v : option error)
| EvDefault.

Record Launch := mkLaunch {
  fg    : fg_pc;
  bg    : bg_pc;
  child : child_state;
  log   : list event
}.

(** Who moves next: the child terminates, or one of the two goroutines
    takes its next step. *)
Inductive action :=
| ChildExits (w : option error)
| Background
| Foreground.

(** The state in which [go func() ...] (line 143) leaves the launch: the
    caller is about to sleep, the new goroutine is about to wait. *)
Definition launch_init : Launch := mkLaunch FgSleep BgWait Running [].

(** One step of the launch, lines 143-163. [None]: the chosen party cannot
    move (a goroutine that is blocked or has returned, a child that is
    gone). [cmd.Wait()] returns only once the child has exited; the send on
    [errc] waits for a receiver, and the only receive is the caller's
    [select]; the [select] takes its receive case when the sender is
    waiting and its [default] case otherwise. *)
Definition step (arch : string) (proc : Process) (a : action) (s : Launch)
  : option Launch :=
  match a with
  | ChildExits w =>
      match child s with
      | Running => Some (mkLaunch (fg s) (bg s) (Exited w) (append (log s) (EvChildExit w)))
      | Exited _ => None
      end
  | Background =>
      match bg s with
      | BgWait =>
          (* err := cmd.Wait(); if err != nil { errc <- fmt.Errorf(...); return } *)
          match child s with
          | Running => None
          | Exited err =>
              let next :=
                match err with
                | Some e => BgSend (Some (fmt.Errorf_qemu arch e))
                | None => BgReturned
                end in
              Some (mkLaunch (fg s) next (child s) (append (log s) (EvWaitReturned err)))
          end
      | BgSend _ => None
      | BgReturned => None
      end
  | Foreground =>
      match fg s with
      | FgSleep =>
          (* time.Sleep(50 * time.Millisecond) *)
          Some (mkLaunch FgSelect (bg s) (child s) (append (log s) (EvSleep grace_interval)))
      | FgSelect =>
          match bg s with
          | BgSend vmerr =>
              (* case vmerr = <-errc: if vmerr != nil { return nil, vmerr };
                 otherwise on to return proc, nil *)
              let r := match vmerr with
                       | Some e => (None, Some e)
                       | None => (Some proc, None)
                       end in
              Some (mkLaunch (FgReturned r) BgReturned (child s)
                             (append (log s) (EvReceive vmerr)))
          | _ =>
              (* default: break; then return proc, nil *)
              Some (mkLaunch (FgReturned (Some proc, None)) (bg s) (child s)
                             (append (log s) EvDefault))
          end
      | FgReturned _ => None
      end
  end.

(** Running a schedule from a state. *)
Fixpoint run (arch : string) (proc : Process) (sched : list action) (s : Launch)
  : option Launch :=
  match sched with
  | [] => Some s
  | a :: sched' =>
      match step arch proc a s with
      | Some s' => run arch proc sched' s'
      | None => None
      end
  end.

(** The host's [cmd.Start()]: the error of a failed spawn, or no error and
    the process then found in [cmd.Process]. *)
Definition host : Type := Cmd -> Process + error.

(** [func (m *Machine) Start(arch string, kvm bool)] on the host [os], where
    [sched] is the course the child and the two goroutines take after the
    spawn. [None]: the schedule ends, or cannot go on, before the caller
    has returned. *)
Definition Start (os : host) (sched : list action) (arch : string) (kvm : bool)
  : St (option result) :=
  cmd <- Start_command arch kvm ;;
  match os cmd with
  | inr err =>
      (* if err != nil { return nil, err } *)
      ret (Some (None, Some err))
  | inl proc =>
      match run arch proc sched launch_init with
      | Some s =>
          match fg s with
          | FgReturned r => ret (Some r)
          | _ => ret None
          end
      | None => ret None
      end
  end.

(** [Start_returns os arch kvm m r m']: called on the descriptor [m] on the
    host [os], [Start] can return [r], leaving the descriptor as [m']. *)
Definition Start_returns (os : host) (arch : string) (kvm : bool) (m : Machine)
    (r : result) (m' : Machine) : Prop :=
  exists sched, Start os sched arch kvm m = (Some r, m').

(* ================================================================= *)
(** * Reading an argument vector *)

(** The argument vector read as the options it spells, left to right:
    [-enable-kvm] stands alone, every other flag takes the next argument as
    its value. *)
Fixpoint options (args : list string) : list (string * option string) :=
  match args with
  | [] => []
  | flag :: rest =>
      if flag =? "-enable-kvm" then (flag, None) :: options rest
      else match rest with
           | [] => [(flag, None)]
           | value :: rest' => (flag, Some value) :: options rest'
           end
  end.

(** The options whose flag passes a test; those with a given flag, and
    those with one of two flags. *)
Fixpoint select (p : string -> bool) (opts : list (string * option string))
  : list (string * option string) :=
  match opts with
  | [] => []
  | (flag, value) :: opts' =>
      if p flag then (flag, value) :: select p opts' else select p opts'
  end.
Definition with_flag (f : string) (opts : list (string * option string)) :=
  select (fun flag => flag =? f) opts.
Definition with_flags (f g : string) (opts : list (string * option string)) :=
  select (fun flag => (flag =? f) || (flag =? g)) opts.

(** The events of the calling goroutine, and the deliveries on [errc]. *)
Definition is_fg_event (e : event) : bool :=
  match e with
  | EvSleep _ | EvReceive _ | EvDefault => true
  | _ => false
  end.
Definition is_receive (e : event) : bool :=
  match e with EvReceive _ => true | _ => false end.
Definition is_wait_returned (e : event) : bool :=
  match e with EvWaitReturned _ => true | _ => false end.

(* ================================================================= *)
(** * The rendering, section by section *)

(** The sections of the argument list in the order of the rendering
    algorithm (steps 2 to 8), each as a function of the field it reads. *)

Definition is_set (s : string) : bool := negb (s =? "").

Definition sizing_section (cores : Z) (memory : N) : list string :=
  ["-smp"; strconv.Itoa cores; "-m"; strconv.FormatUint10 memory].

Definition kvm_section (kvm : bool) : list string :=
  if kvm then ["-enable-kvm"] else [].

Definition cdrom_section (image : string) : list string :=
  if is_set image then ["-cdrom"; image] else [].

Definition drive_value (d : Drive.t) : string :=
  "file=" ++ Drive.Path d ++ ",format=" ++ Drive.Format d.

Definition drive_section (ds : list Drive.t) : list string :=
  flat_map (fun d => ["-drive"; drive_value d]) ds.

Definition ifname_suffix (i : NetDev.t) : string :=
  if is_set (NetDev.IfName i) then ",ifname=" ++ NetDev.IfName i else "".

Definition mac_suffix (i : NetDev.t) : string :=
  if is_set (NetDev.MAC i) then ",mac=" ++ NetDev.MAC i else "".

Definition backend_value (i : NetDev.t) : string :=
  (NetDev.Type_ i ++ ",id=" ++ NetDev.ID i) ++ ifname_suffix i.

Definition device_value (i : NetDev.t) : string :=
  ("virtio-net,netdev=" ++ NetDev.ID i) ++ mac_suffix i.

Definition iface_section (ifs : list NetDev.t) : list string :=
  flat_map (fun i => ["-netdev"; backend_value i; "-device"; device_value i]) ifs.

Definition network_section (ifs : list NetDev.t) : list string :=
  match ifs with
  | [] => ["-net"; "none"]
  | _ :: _ => iface_section ifs
  end.

Definition display_section (endpoint : string) : list string :=
  if is_set endpoint then ["-vnc"; endpoint] else [].

Definition control_value (path : string) : string :=
  "unix:" ++ path ++ ",server,nowait".

Definition control_section (path : string) : list string :=
  if is_set path then ["-qmp"; control_value path] else [].

Definition ordered_args (m : Machine) (kvm : bool) : list string :=
  (sizing_section (Cores m) (Memory m)
   ++ kvm_section kvm
   ++ cdrom_section (cd m)
   ++ drive_section (drives m)
   ++ network_section (ifaces m)
   ++ display_section (vnc m)
   ++ control_section (monitor m))%list.

(** The same sections as options. *)
Definition one_if (b : bool) (o : string * option string) : list (string * option string) :=
  if b then [o] else [].

Definition drive_options (ds : list Drive.t) : list (string * option string) :=
  map (fun d => ("-drive", Some (drive_value d))) ds.

Definition iface_options (ifs : list NetDev.t) : list (string * option string) :=
  flat_map (fun i => [("-netdev", Some (backend_value i));
                      ("-device", Some (device_value i))]) ifs.

Definition network_options (ifs : list NetDev.t) : list (string * option string) :=
  match ifs with
  | [] => [("-net", Some "none")]
  | _ :: _ => iface_options ifs
  end.

Definition ordered_options (m : Machine) (kvm : bool) : list (string * option string) :=
  ([("-smp", Some (strconv.Itoa (Cores m)));
    ("-m", Some (strconv.FormatUint10 (Memory m)))]
   ++ one_if kvm ("-enable-kvm", None)
   ++ one_if (is_set (cd m)) ("-cdrom", Some (cd m))
   ++ drive_options (drives m)
   ++ network_options (ifaces m)
   ++ one_if (is_set (vnc m)) ("-vnc", Some (vnc m))
   ++ one_if (is_set (monitor m)) ("-qmp", Some (control_value (monitor m))))%list.

Definition is_child_exit (e : event) : bool :=
  match e with EvChildExit _ => true | _ => false end.

(** Every value received from [errc] is the wrapped error of a child that
    had exited with that error, and which [cmd.Wait()] had already
    returned, earlier in the log. *)
Definition deliveries_justified (arch : string) (l : list event) : Prop :=
  forall before v after,
    l = (before ++ EvReceive v :: after)%list ->
    exists e, v = Some (fmt.Errorf_qemu arch e)
              /\ In (EvChildExit (Some e)) before
              /\ In (EvWaitReturned (Some e)) before.

(** What holds of every state of a launch: the log agrees with where the two
    goroutines and the child stand, and a value is received only after the
    child has exited with an error and [cmd.Wait()] has returned it. *)
Definition launch_invariant (arch : string) (proc : Process) (s : Launch) : Prop :=
  match fg s with
  | FgSleep =>
      filter is_fg_event (log s) = [] /\ filter is_receive (log s) = []
  | FgSelect =>
      filter is_fg_event (log s) = [EvSleep grace_interval]
      /\ filter is_receive (log s) = []
  | FgReturned r =>
      (filter is_fg_event (log s) = [EvSleep grace_interval; EvDefault]
       /\ filter is_receive (log s) = []
       /\ r = (Some proc, None))
      \/ (exists e,
            filter is_fg_event (log s)
            = [EvSleep grace_interval; EvReceive (Some (fmt.Errorf_qemu arch e))]
            /\ filter is_receive (log s) = [EvReceive (Some (fmt.Errorf_qemu arch e))]
            /\ r = (None, Some (fmt.Errorf_qemu arch e)))
  end
  /\ match bg s with
     | BgWait =>
         filter is_wait_returned (log s) = [] /\ filter is_receive (log s) = []
     | BgSend v =>
         exists e, v = Some (fmt.Errorf_qemu arch e)
                   /\ child s = Exited (Some e)
                   /\ filter is_wait_returned (log s) = [EvWaitReturned (Some e)]
                   /\ filter is_receive (log s) = []
     | BgReturned =>
         exists w, child s = Exited w
                   /\ filter is_wait_returned (log s) = [EvWaitReturned w]
                   /\ ((w = None /\ filter is_receive (log s) = [])
                       \/ exists e, w = Some e
                                    /\ filter is_receive (log s)
                                       = [EvReceive (Some (fmt.Errorf_qemu arch e))])
     end
  /\ match child s with
     | Running => bg s = BgWait /\ filter is_child_exit (log s) = []
     | Exited w => filter is_child_exit (log s) = [EvChildExit w]
     end
  /\ deliveries_justified arch (log s).

(* ================================================================= *)
(** * Sequences of operations, and the descriptors and hosts of the examples *)

(** The mutation operations of a descriptor, as data. *)
Inductive operation :=
| OpAddCDRom (dev : string)
| OpAddDrive (d : Drive.t)
| OpAddDriveImage (img : Image.t)
| OpAddNetworkDevice (netdev : NetDev.t)
| OpAddVNC (addr : string) (port : Z)
| OpAddMonitorUnix (dev : string).

Definition perform (o : operation) : St unit :=
  match o with
  | OpAddCDRom dev => AddCDRom dev
  | OpAddDrive d => AddDrive d
  | OpAddDriveImage img => AddDriveImage img
  | OpAddNetworkDevice netdev => AddNetworkDevice netdev
  | OpAddVNC addr port => AddVNC addr port
  | OpAddMonitorUnix dev => AddMonitorUnix dev
  end.

Fixpoint perform_all (ops : list operation) : St unit :=
  match ops with
  | [] => ret tt
  | o :: ops' => perform o >> perform_all ops'
  end.

(** Two cores, 1024 MB, one qcow2 drive and nothing else. *)
Definition scenario_machine : Machine :=
  execSt (AddDrive (Drive.mk "/vm.qcow2" "qcow2")) (NewMachine 2 1024).

(** A descriptor with no cores and two interfaces of the same id. *)
Definition unchecked_machine : Machine :=
  execSt (AddNetworkDevice (NetDev.mk "user" "net0" "" "")
          >> AddNetworkDevice (NetDev.mk "tap" "net0" "tap0" "52:54:00:12:34:56"))
         (NewMachine 0 0).

(** One [user] interface [net0] and nothing else. *)
Definition user_net_machine : Machine :=
  execSt (AddNetworkDevice (NetDev.mk "user" "net0" "" "")) (NewMachine 1 512).

(** A host on which every spawn succeeds, and one on which none does. *)
Definition spawning_host : host := fun _ => inl (mkProcess 4242).
Definition failing_host : host :=
  fun cmd => inr (mkError ("exec: " ++ Name cmd ++ ": executable file not found in $PATH")).

(** What [cmd.Wait()] reports for a child that exits with status 1. *)
Definition exit_status_1 : error := mkError "exit status 1".

(** Three courses of a launch: the child fails at once and the background
    goroutine is at its send when the caller wakes up; the child keeps
    running; the child fails after the caller has looked. *)
Definition early_exit_schedule : list action :=
  [ChildExits (Some exit_status_1); Background; Foreground; Foreground].
Definition healthy_schedule : list action :=
  [Foreground; Foreground].
Definition late_exit_schedule : list action :=
  [Foreground; Foreground; ChildExits (Some exit_status_1); Background].

(** The state a schedule leads to from the start of a launch
    ([launch_init] itself when the schedule cannot be run). *)
Definition state_after (arch : string) (proc : Process) (sched : list action) : Launch :=
  match run arch proc sched launch_init with
  | Some s => s
  | None => launch_init
  end.

(* ================================================================= *)
(** * Reading a sequence of operations *)

(** The field an operation assigns to. *)
Inductive field := FieldCd | FieldVnc | FieldMonitor | FieldDrives | FieldIfaces.

Definition target (o : operation) : field :=
  match o with
  | OpAddCDRom _ => FieldCd
  | OpAddDrive _ | OpAddDriveImage _ => FieldDrives
  | OpAddNetworkDevice _ => FieldIfaces
  | OpAddVNC _ _ => FieldVnc
  | OpAddMonitorUnix _ => FieldMonitor
  end.

(** The drives and the interfaces a sequence of operations attaches, in
    the order of the calls. *)
Fixpoint attached_drives (ops : list operation) : list Drive.t :=
  match ops with
  | [] => []
  | OpAddDrive d :: ops' => d :: attached_drives ops'
  | OpAddDriveImage img :: ops' =>
      Drive.mk (Image.Path img) (Image.Format img) :: attached_drives ops'
  | _ :: ops' => attached_drives ops'
  end.

Fixpoint attached_ifaces (ops : list operation) : list NetDev.t :=
  match ops with
  | [] => []
  | OpAddNetworkDevice n :: ops' => n :: attached_ifaces ops'
  | _ :: ops' => attached_ifaces ops'
  end.

(** The value a sequence of operations leaves in a string field that held
    [cur] before: that of the last call of its setter, if any. *)
Fixpoint final_cd (ops : list operation) (cur : string) : string :=
  match ops with
  | [] => cur
  | OpAddCDRom dev :: ops' => final_cd ops' dev
  | _ :: ops' => final_cd ops' cur
  end.

Fixpoint final_vnc (ops : list operation) (cur : string) : string :=
  match ops with
  | [] => cur
  | OpAddVNC addr port :: ops' => final_vnc ops' (fmt.Sprintf_addr_port addr port)
  | _ :: ops' => final_vnc ops' cur
  end.

Fixpoint final_monitor (ops : list operation) (cur : string) : string :=
  match ops with
  | [] => cur
  | OpAddMonitorUnix dev :: ops' => final_monitor ops' dev
  | _ :: ops' => final_monitor ops' cur
  end.

(** The flags [Start] writes, and an option as [Start] writes them: a flag
    of that list, alone when it is [-enable-kvm] and with a value
    otherwise. *)
Definition known_flags : list string :=
  ["-smp"; "-m"; "-enable-kvm"; "-cdrom"; "-drive"; "-net"; "-netdev";
   "-device"; "-vnc"; "-qmp"].

Definition option_ok (o : string * option string) : bool :=
  existsb (String.eqb (fst o)) known_flags
  && match snd o with
     | None => fst o =? "-enable-kvm"
     | Some _ => negb (fst o =? "-enable-kvm")
     end.

(** The number of arguments each part of a descriptor accounts for. *)
Definition args_count (m : Machine) (kvm : bool) : nat :=
  (4 + (if kvm then 1 else 0)
   + (if is_set (cd m) then 2 else 0)
   + 2 * List.length (drives m)
   + match ifaces m with
     | [] => 2
     | _ :: _ => 4 * List.length (ifaces m)
     end
   + (if is_set (vnc m) then 2 else 0)
   + (if is_set (monitor m) then 2 else 0))%nat.

(** A launch in which the child exits cleanly before the caller wakes up. *)
Definition clean_exit_schedule : list action :=
  [ChildExits None; Background; Foreground; Foreground].

(** Filtering a log that has grown by one event. *)
Ltac snoc_filters :=
  unfold append; rewrite ?filter_app; cbn [filter is_fg_event is_receive
    is_wait_returned is_child_exit]; rewrite ?app_nil_r.

(* ================================================================= *)
(** * Facts about strings and the state monad *)

Lemma append_empty_r (s : string) : s ++ "" = s.
Proof.
  induction s as [|c s IH]; simpl; [reflexivity | now rewrite IH].
Qed.

Lemma length_positive_is_set (s : string) :
  (0 <? String.length s)%nat = is_set s.
Proof.
  destruct s; reflexivity.
Qed.

Lemma is_set_true (s : string) : is_set s = true <-> s <> "".
Proof.
  unfold is_set. destruct (String.eqb_spec s ""); simpl; split; congruence.
Qed.

Lemma is_set_false (s : string) : is_set s = false <-> s = "".
Proof.
  unfold is_set. destruct (String.eqb_spec s ""); simpl; split; congruence.
Qed.

Lemma is_set_append_l (a b : string) : is_set (a ++ String ":" b) = true.
Proof.
  destruct a; reflexivity.
Qed.

(** The two loops of the rendering append one section each. *)
Lemma drive_loop (ds : list Drive.t) :
  forall args, fold_left drive_loop_body ds args = (args ++ drive_section ds)%list.
Proof.
  induction ds as [|d ds IH]; intros args; simpl.
  - now rewrite app_nil_r.
  - rewrite IH. unfold drive_loop_body, append, fmt.Sprintf_drive, drive_value.
    now rewrite <- !app_assoc.
Qed.

Lemma iface_loop (ifs : list NetDev.t) :
  forall args, fold_left iface_loop_body ifs args = (args ++ iface_section ifs)%list.
Proof.
  induction ifs as [|i ifs IH]; intros args; simpl.
  - now rewrite app_nil_r.
  - rewrite IH. unfold iface_loop_body, append, backend_value, device_value,
      ifname_suffix, mac_suffix, fmt.Sprintf_netdev, fmt.Sprintf_ifname,
      fmt.Sprintf_device, fmt.Sprintf_mac.
    rewrite !length_positive_is_set.
    destruct (is_set (NetDev.IfName i)), (is_set (NetDev.MAC i));
      rewrite ?append_empty_r, <- !app_assoc; reflexivity.
Qed.

(** [Start_render] in closed form: the value it computes and the
    descriptor it leaves. *)
Lemma Start_render_closed (arch : string) (kvm : bool) (m : Machine) :
  Start_render arch kvm m = (("qemu-system-" ++ arch, ordered_args m kvm), m).
Proof.
  unfold Start_render, bind, gets, ret, ordered_args. simpl.
  rewrite drive_loop, iface_loop, !length_positive_is_set.
  unfold fmt.Sprintf_qemu, fmt.Sprintf_qmp, control_value, append, sizing_section, kvm_section,
    cdrom_section, display_section, control_section, network_section.
  f_equal. f_equal.
  destruct kvm, (is_set (cd m)), (ifaces m) as [|i ifs], (is_set (vnc m)),
    (is_set (monitor m)); simpl; rewrite <- ?app_assoc; simpl;
    rewrite ?app_nil_r; reflexivity.
Qed.

Lemma rendered_args_closed (m : Machine) (arch : string) (kvm : bool) :
  rendered_args m arch kvm = ordered_args m kvm.
Proof.
  unfold rendered_args, evalSt. now rewrite Start_render_closed.
Qed.

(* ================================================================= *)
(** * Reading the rendered arguments as options *)

Lemma options_drive_section (ds : list Drive.t) (rest : list string) :
  options (drive_section ds ++ rest) = (drive_options ds ++ options rest)%list.
Proof.
  induction ds as [|d ds IH]; simpl; [reflexivity | now rewrite IH].
Qed.

Lemma options_iface_section (ifs : list NetDev.t) (rest : list string) :
  options (iface_section ifs ++ rest) = (iface_options ifs ++ options rest)%list.
Proof.
  induction ifs as [|i ifs IH]; simpl; [reflexivity | now rewrite IH].
Qed.

Lemma options_network_section (ifs : list NetDev.t) (rest : list string) :
  options (network_section ifs ++ rest) = (network_options ifs ++ options rest)%list.
Proof.
  destruct ifs as [|i ifs]; [reflexivity |].
  unfold network_section, network_options. apply options_iface_section.
Qed.

Lemma options_ordered_args (m : Machine) (kvm : bool) :
  options (ordered_args m kvm) = ordered_options m kvm.
Proof.
  unfold ordered_args, ordered_options, sizing_section.
  cbn [app options String.eqb Ascii.eqb Bool.eqb].
  do 2 f_equal.
  assert (Hkvm : forall rest, options (kvm_section kvm ++ rest)
                 = (one_if kvm ("-enable-kvm", None) ++ options rest)%list)
    by (destruct kvm; reflexivity).
  assert (Hcd : forall rest, options (cdrom_section (cd m) ++ rest)
                = (one_if (is_set (cd m)) ("-cdrom", Some (cd m)) ++ options rest)%list)
    by (unfold cdrom_section; destruct (is_set (cd m)); reflexivity).
  rewrite Hkvm, Hcd, options_drive_section, options_network_section.
  do 4 f_equal.
  unfold display_section, control_section.
  destruct (is_set (vnc m)), (is_set (monitor m)); reflexivity.
Qed.

Lemma options_rendered (m : Machine) (arch : string) (kvm : bool) :
  options (rendered_args m arch kvm) = ordered_options m kvm.
Proof.
  rewrite rendered_args_closed. apply options_ordered_args.
Qed.

(** Selecting options by a test on the flag. *)
Section Selecting.

Variable p : string -> bool.

Lemma select_app (l1 l2 : list (string * option string)) :
  select p (l1 ++ l2) = (select p l1 ++ select p l2)%list.
Proof.
  induction l1 as [|[f v] l1 IH]; simpl; [reflexivity |].
  rewrite IH. now destruct (p f).
Qed.

Lemma select_one_if (b : bool) (f : string) (v : option string) :
  select p (one_if b (f, v)) = one_if (b && p f) (f, v).
Proof.
  destruct b; simpl; [| reflexivity]. now destruct (p f).
Qed.

Lemma select_drive_options (ds : list Drive.t) :
  select p (drive_options ds) = if p "-drive" then drive_options ds else [].
Proof.
  induction ds as [|d ds IH]; simpl.
  - now destruct (p "-drive").
  - rewrite IH. now destruct (p "-drive").
Qed.

Lemma select_iface_options (ifs : list NetDev.t) :
  p "-netdev" = p "-device" ->
  select p (iface_options ifs) = if p "-netdev" then iface_options ifs else [].
Proof.
  intros Hp. induction ifs as [|i ifs IH]; simpl.
  - now destruct (p "-netdev").
  - rewrite IH, <- Hp. now destruct (p "-netdev").
Qed.

Lemma select_network_options (ifs : list NetDev.t) :
  p "-netdev" = p "-device" ->
  select p (network_options ifs)
  = match ifs with
    | [] => one_if (p "-net") ("-net", Some "none")
    | _ :: _ => if p "-netdev" then iface_options ifs else []
    end.
Proof.
  intros Hp. destruct ifs as [|i ifs].
  - simpl. now destruct (p "-net").
  - unfold network_options. now apply select_iface_options.
Qed.

Lemma select_ordered_options (m : Machine) (kvm : bool) :
  p "-netdev" = p "-device" ->
  select p (ordered_options m kvm)
  = (one_if (p "-smp") ("-smp", Some (strconv.Itoa (Cores m)))
     ++ one_if (p "-m") ("-m", Some (strconv.FormatUint10 (Memory m)))
     ++ one_if (kvm && p "-enable-kvm") ("-enable-kvm", None)
     ++ one_if (is_set (cd m) && p "-cdrom") ("-cdrom", Some (cd m))
     ++ (if p "-drive" then drive_options (drives m) else [])
     ++ match ifaces m with
        | [] => one_if (p "-net") ("-net", Some "none")
        | _ :: _ => if p "-netdev" then iface_options (ifaces m) else []
        end
     ++ one_if (is_set (vnc m) && p "-vnc") ("-vnc", Some (vnc m))
     ++ one_if (is_set (monitor m) && p "-qmp")
          ("-qmp", Some (control_value (monitor m))))%list.
Proof.
  intros Hp. unfold ordered_options.
  change ([("-smp", Some (strconv.Itoa (Cores m)));
           ("-m", Some (strconv.FormatUint10 (Memory m)))])
    with (one_if true ("-smp", Some (strconv.Itoa (Cores m)))
          ++ one_if true ("-m", Some (strconv.FormatUint10 (Memory m))))%list.
  rewrite <- app_assoc, !select_app.
  rewrite !select_one_if, select_drive_options, select_network_options by exact Hp.
  reflexivity.
Qed.

End Selecting.

(* ================================================================= *)
(** * The operations in closed form *)

Lemma append_assoc (a b c : string) : (a ++ b) ++ c = a ++ (b ++ c).
Proof.
  induction a as [|x a IH]; simpl; [reflexivity | now rewrite IH].
Qed.

Lemma seq_exec (c1 c2 : St unit) (m : Machine) :
  execSt (c1 >> c2) m = execSt c2 (execSt c1 m).
Proof.
  unfold seq, execSt, bind. now destruct (c1 m).
Qed.

Lemma AddCDRom_exec dev m : execSt (AddCDRom dev) m = set_cd dev m.
Proof. reflexivity. Qed.

Lemma AddDrive_exec d m : execSt (AddDrive d) m = set_drives (drives m ++ [d]) m.
Proof. reflexivity. Qed.

Lemma AddDriveImage_exec img m :
  execSt (AddDriveImage img) m
  = set_drives (drives m ++ [Drive.mk (Image.Path img) (Image.Format img)]) m.
Proof. reflexivity. Qed.

Lemma AddNetworkDevice_exec n m :
  execSt (AddNetworkDevice n) m = set_ifaces (ifaces m ++ [n]) m.
Proof. reflexivity. Qed.

Lemma AddVNC_exec addr port m :
  execSt (AddVNC addr port) m = set_vnc (addr ++ ":" ++ strconv.Itoa port) m.
Proof. reflexivity. Qed.

Lemma AddMonitorUnix_exec dev m : execSt (AddMonitorUnix dev) m = set_monitor dev m.
Proof. reflexivity. Qed.

Lemma drive_options_app (ds1 ds2 : list Drive.t) :
  drive_options (ds1 ++ ds2) = (drive_options ds1 ++ drive_options ds2)%list.
Proof. apply map_app. Qed.

Lemma iface_options_app (l1 l2 : list NetDev.t) :
  iface_options (l1 ++ l2) = (iface_options l1 ++ iface_options l2)%list.
Proof. apply flat_map_app. Qed.

Lemma drive_section_app (ds1 ds2 : list Drive.t) :
  drive_section (ds1 ++ ds2) = (drive_section ds1 ++ drive_section ds2)%list.
Proof. apply flat_map_app. Qed.

Lemma iface_section_app (l1 l2 : list NetDev.t) :
  iface_section (l1 ++ l2) = (iface_section l1 ++ iface_section l2)%list.
Proof. apply flat_map_app. Qed.

(** The options of a rendering that carry a given flag. *)
Lemma with_flag_rendered (f : string) (m : Machine) (arch : string) (kvm : bool) :
  (("-netdev" =? f) = ("-device" =? f)) ->
  with_flag f (options (rendered_args m arch kvm))
  = (one_if ("-smp" =? f) ("-smp", Some (strconv.Itoa (Cores m)))
     ++ one_if ("-m" =? f) ("-m", Some (strconv.FormatUint10 (Memory m)))
     ++ one_if (kvm && ("-enable-kvm" =? f)) ("-enable-kvm", None)
     ++ one_if (is_set (cd m) && ("-cdrom" =? f)) ("-cdrom", Some (cd m))
     ++ (if "-drive" =? f then drive_options (drives m) else [])
     ++ match ifaces m with
        | [] => one_if ("-net" =? f) ("-net", Some "none")
        | _ :: _ => if "-netdev" =? f then iface_options (ifaces m) else []
        end
     ++ one_if (is_set (vnc m) && ("-vnc" =? f)) ("-vnc", Some (vnc m))
     ++ one_if (is_set (monitor m) && ("-qmp" =? f))
          ("-qmp", Some (control_value (monitor m))))%list.
Proof.
  intros Hf. unfold with_flag. rewrite options_rendered.
  now rewrite select_ordered_options.
Qed.

Lemma network_flags_rendered (m : Machine) (arch : string) (kvm : bool) :
  with_flags "-netdev" "-device" (options (rendered_args m arch kvm))
  = iface_options (ifaces m).
Proof.
  unfold with_flags. rewrite options_rendered, select_ordered_options by reflexivity.
  cbn [String.eqb Ascii.eqb Bool.eqb orb andb one_if app].
  rewrite !andb_false_r. cbn [one_if app].
  destruct (ifaces m); cbn [one_if app]; now rewrite ?app_nil_r.
Qed.

(* ================================================================= *)
(** * The order of the rendered arguments *)

(** C1. For every descriptor the rendered argument list is, in this order:
    [-smp <cores>] and [-m <memoryMB>], [-enable-kvm] if requested, the
    CD-ROM pair if set, one [-drive file=<path>,format=<format>] pair per
    drive in insertion order, the network flags, the display pair if set,
    the control-socket pair if set. The descriptor with 2 cores, 1024 MB,
    the drive [/vm.qcow2] of format [qcow2] and nothing else, launched
    without KVM, renders exactly
    [-smp 2 -m 1024 -drive file=/vm.qcow2,format=qcow2 -net none]. *)
Theorem render_order (m : Machine) (arch : string) (kvm : bool) :
  rendered_args m arch kvm
  = (sizing_section (Cores m) (Memory m)
     ++ kvm_section kvm
     ++ cdrom_section (cd m)
     ++ drive_section (drives m)
     ++ network_section (ifaces m)
     ++ display_section (vnc m)
     ++ control_section (monitor m))%list
  /\ scenario_machine
     = mkMachine 2 1024 "" "" "" [Drive.mk "/vm.qcow2" "qcow2"] []
  /\ rendered_args scenario_machine arch false
     = ["-smp"; "2"; "-m"; "1024";
        "-drive"; "file=/vm.qcow2,format=qcow2"; "-net"; "none"].
Proof.
  split; [apply rendered_args_closed |].
  split; [reflexivity |].
  rewrite rendered_args_closed. reflexivity.
Qed.

(* ================================================================= *)
(** * The network flags *)

Lemma ifname_suffix_set (i : NetDev.t) :
  ifname_suffix i = ",ifname=" ++ NetDev.IfName i <-> NetDev.IfName i <> "".
Proof.
  unfold ifname_suffix.
  destruct (is_set (NetDev.IfName i)) eqn:E.
  - apply is_set_true in E. tauto.
  - apply is_set_false in E. rewrite E. split; [discriminate | congruence].
Qed.

Lemma ifname_suffix_unset (i : NetDev.t) :
  ifname_suffix i = "" <-> NetDev.IfName i = "".
Proof.
  unfold ifname_suffix.
  destruct (is_set (NetDev.IfName i)) eqn:E.
  - apply is_set_true in E. split; [discriminate | contradiction].
  - apply is_set_false in E. tauto.
Qed.

Lemma mac_suffix_set (i : NetDev.t) :
  mac_suffix i = ",mac=" ++ NetDev.MAC i <-> NetDev.MAC i <> "".
Proof.
  unfold mac_suffix.
  destruct (is_set (NetDev.MAC i)) eqn:E.
  - apply is_set_true in E. tauto.
  - apply is_set_false in E. rewrite E. split; [discriminate | congruence].
Qed.

Lemma mac_suffix_unset (i : NetDev.t) :
  mac_suffix i = "" <-> NetDev.MAC i = "".
Proof.
  unfold mac_suffix.
  destruct (is_set (NetDev.MAC i)) eqn:E.
  - apply is_set_true in E. split; [discriminate | contradiction].
  - apply is_set_false in E. tauto.
Qed.

(** C2. With no network interface the rendered arguments hold exactly one
    [-net none] pair and no [-netdev] or [-device] pair. With interfaces
    they hold no [-net] pair, and their [-netdev] and [-device] pairs are,
    interface by interface in insertion order, [-netdev <kind>,id=<id>]
    followed by [-device virtio-net,netdev=<id>]; the backend value ends in
    [,ifname=<name>] exactly when the interface name is set, the device
    value in [,mac=<addr>] exactly when the MAC address is set. *)
Theorem network_flags (m : Machine) (arch : string) (kvm : bool) :
  with_flag "-net" (options (rendered_args m arch kvm))
  = match ifaces m with
    | [] => [("-net", Some "none")]
    | _ :: _ => []
    end
  /\ with_flags "-netdev" "-device" (options (rendered_args m arch kvm))
     = flat_map (fun i => [("-netdev", Some (backend_value i));
                           ("-device", Some (device_value i))]) (ifaces m)
  /\ rendered_args m arch kvm
     = ((sizing_section (Cores m) (Memory m) ++ kvm_section kvm
         ++ cdrom_section (cd m) ++ drive_section (drives m))
        ++ match ifaces m with
           | [] => ["-net"; "none"]
           | _ :: _ =>
               flat_map (fun i => ["-netdev"; backend_value i;
                                   "-device"; device_value i]) (ifaces m)
           end
        ++ (display_section (vnc m) ++ control_section (monitor m)))%list
  /\ forall i : NetDev.t,
       backend_value i = NetDev.Type_ i ++ ",id=" ++ NetDev.ID i ++ ifname_suffix i
       /\ (ifname_suffix i = ",ifname=" ++ NetDev.IfName i <-> NetDev.IfName i <> "")
       /\ (ifname_suffix i = "" <-> NetDev.IfName i = "")
       /\ device_value i = "virtio-net,netdev=" ++ NetDev.ID i ++ mac_suffix i
       /\ (mac_suffix i = ",mac=" ++ NetDev.MAC i <-> NetDev.MAC i <> "")
       /\ (mac_suffix i = "" <-> NetDev.MAC i = "").
Proof.
  split; [| split; [| split]].
  - rewrite with_flag_rendered by reflexivity.
    cbn [String.eqb Ascii.eqb Bool.eqb one_if app].
    rewrite !andb_false_r. cbn [one_if app].
    destruct (ifaces m); reflexivity.
  - apply network_flags_rendered.
  - rewrite rendered_args_closed. unfold ordered_args.
    rewrite <- !app_assoc. reflexivity.
  - intros i. unfold backend_value, device_value. rewrite !append_assoc.
    repeat split;
      try apply ifname_suffix_set; try apply ifname_suffix_unset;
      try apply mac_suffix_set; try apply mac_suffix_unset.
Qed.

(** The descriptor with the one interface [user]/[net0]: the backend pair,
    at once followed by the device pair, and no [-net none]. *)
Lemma user_net_rendering (arch : string) :
  rendered_args user_net_machine arch false
  = ["-smp"; "1"; "-m"; "512";
     "-netdev"; "user,id=net0"; "-device"; "virtio-net,netdev=net0"].
Proof.
  rewrite rendered_args_closed. reflexivity.
Qed.

(* ================================================================= *)
(** * Setting a field twice *)

(** C4, as amended. After two calls of a setter with [v1] then [v2] the
    descriptor, and so its rendering, is the one a single call with [v2]
    gives: nothing of [v1] is left. The rendering then holds the pair for
    [v2] exactly once when [v2] is not the empty string, and no such pair
    when it is; a display endpoint [addr:port] is never empty, so its pair
    is always there exactly once. *)
Theorem last_write_wins (m : Machine) (arch : string) (kvm : bool)
    (v1 v2 addr1 addr2 : string) (port1 port2 : Z) :
  (execSt (AddCDRom v1 >> AddCDRom v2) m = execSt (AddCDRom v2) m
   /\ rendered_args (execSt (AddCDRom v1 >> AddCDRom v2) m) arch kvm
      = rendered_args (execSt (AddCDRom v2) m) arch kvm
   /\ with_flag "-cdrom"
        (options (rendered_args (execSt (AddCDRom v1 >> AddCDRom v2) m) arch kvm))
      = if is_set v2 then [("-cdrom", Some v2)] else [])
  /\ (execSt (AddVNC addr1 port1 >> AddVNC addr2 port2) m
      = execSt (AddVNC addr2 port2) m
      /\ rendered_args (execSt (AddVNC addr1 port1 >> AddVNC addr2 port2) m) arch kvm
         = rendered_args (execSt (AddVNC addr2 port2) m) arch kvm
      /\ with_flag "-vnc"
           (options (rendered_args
                       (execSt (AddVNC addr1 port1 >> AddVNC addr2 port2) m) arch kvm))
         = [("-vnc", Some (addr2 ++ ":" ++ strconv.Itoa port2))])
  /\ (execSt (AddMonitorUnix v1 >> AddMonitorUnix v2) m = execSt (AddMonitorUnix v2) m
      /\ rendered_args (execSt (AddMonitorUnix v1 >> AddMonitorUnix v2) m) arch kvm
         = rendered_args (execSt (AddMonitorUnix v2) m) arch kvm
      /\ with_flag "-qmp"
           (options (rendered_args
                       (execSt (AddMonitorUnix v1 >> AddMonitorUnix v2) m) arch kvm))
         = if is_set v2 then [("-qmp", Some ("unix:" ++ v2 ++ ",server,nowait"))] else []).
Proof.
  assert (Hcd : execSt (AddCDRom v1 >> AddCDRom v2) m = execSt (AddCDRom v2) m)
    by reflexivity.
  assert (Hvnc : execSt (AddVNC addr1 port1 >> AddVNC addr2 port2) m
                 = execSt (AddVNC addr2 port2) m) by reflexivity.
  assert (Hmon : execSt (AddMonitorUnix v1 >> AddMonitorUnix v2) m
                 = execSt (AddMonitorUnix v2) m) by reflexivity.
  rewrite Hcd, Hvnc, Hmon.
  repeat split.
  - rewrite with_flag_rendered by reflexivity.
    rewrite AddCDRom_exec. cbn [cd set_cd drives ifaces vnc monitor].
    cbn [String.eqb Ascii.eqb Bool.eqb one_if app].
    rewrite !andb_false_r, andb_true_r. cbn [one_if app].
    destruct (ifaces m), (is_set v2); reflexivity.
  - rewrite with_flag_rendered by reflexivity.
    rewrite AddVNC_exec. cbn [cd set_vnc drives ifaces vnc monitor].
    cbn [String.eqb Ascii.eqb Bool.eqb one_if app].
    rewrite !andb_false_r, andb_true_r. cbn [one_if app].
    change (addr2 ++ ":" ++ strconv.Itoa port2)
      with (addr2 ++ String ":" (strconv.Itoa port2)).
    rewrite is_set_append_l.
    destruct (ifaces m); reflexivity.
  - rewrite with_flag_rendered by reflexivity.
    rewrite AddMonitorUnix_exec. cbn [cd set_monitor drives ifaces vnc monitor].
    cbn [String.eqb Ascii.eqb Bool.eqb one_if app].
    rewrite !andb_false_r, andb_true_r. cbn [one_if app].
    destruct (ifaces m), (is_set v2); reflexivity.
Qed.

(** C4 as stated fails: after [AddCDRom "/a.iso"] and then [AddCDRom ""]
    the rendering holds no [-cdrom] pair at all, where the claim has the
    pair of the last value exactly once; the same after
    [AddMonitorUnix ""]. *)
Lemma last_write_empty_emits_nothing :
  with_flag "-cdrom"
    (options (rendered_args
                (execSt (AddCDRom "/a.iso" >> AddCDRom "") (NewMachine 1 512))
                "x86_64" false)) = []
  /\ rendered_args (execSt (AddCDRom "/a.iso" >> AddCDRom "") (NewMachine 1 512))
       "x86_64" false
     = ["-smp"; "1"; "-m"; "512"; "-net"; "none"]
  /\ rendered_args
       (execSt (AddMonitorUnix "/tmp/qmp.sock" >> AddMonitorUnix "") (NewMachine 1 512))
       "x86_64" false
     = ["-smp"; "1"; "-m"; "512"; "-net"; "none"].
Proof.
  repeat split; vm_compute; reflexivity.
Qed.

(* ================================================================= *)
(** * Appending drives and interfaces *)

(** C5. Drives attached as [d1] then [d2] are rendered in that order, right
    after the drives the descriptor already had: the [-drive] pairs of the
    rendering after [AddDrive d] are those of the rendering before,
    followed by the pair of [d]. Likewise for network interfaces and their
    [-netdev]/[-device] pairs. *)
Theorem append_preserves_order (m : Machine) (arch : string) (kvm : bool)
    (d1 d2 : Drive.t) (n1 n2 : NetDev.t) :
  rendered_args (execSt (AddDrive d1 >> AddDrive d2) m) arch kvm
  = ((sizing_section (Cores m) (Memory m) ++ kvm_section kvm ++ cdrom_section (cd m))
     ++ drive_section (drives m)
     ++ ["-drive"; drive_value d1]
     ++ ["-drive"; drive_value d2]
     ++ (network_section (ifaces m) ++ display_section (vnc m)
         ++ control_section (monitor m)))%list
  /\ with_flag "-drive" (options (rendered_args (execSt (AddDrive d1) m) arch kvm))
     = (with_flag "-drive" (options (rendered_args m arch kvm))
        ++ [("-drive", Some (drive_value d1))])%list
  /\ drive_section (drives (execSt (AddDrive d1) m))
     = (drive_section (drives m) ++ ["-drive"; drive_value d1])%list
  /\ drive_value d1 = "file=" ++ Drive.Path d1 ++ ",format=" ++ Drive.Format d1
  /\ rendered_args (execSt (AddNetworkDevice n1 >> AddNetworkDevice n2) m) arch kvm
     = ((sizing_section (Cores m) (Memory m) ++ kvm_section kvm ++ cdrom_section (cd m)
         ++ drive_section (drives m))
        ++ iface_section (ifaces m)
        ++ ["-netdev"; backend_value n1; "-device"; device_value n1]
        ++ ["-netdev"; backend_value n2; "-device"; device_value n2]
        ++ (display_section (vnc m) ++ control_section (monitor m)))%list
  /\ with_flags "-netdev" "-device"
       (options (rendered_args (execSt (AddNetworkDevice n1) m) arch kvm))
     = (with_flags "-netdev" "-device" (options (rendered_args m arch kvm))
        ++ [("-netdev", Some (backend_value n1));
            ("-device", Some (device_value n1))])%list.
Proof.
  repeat split.
  - rewrite rendered_args_closed, seq_exec, !AddDrive_exec. unfold ordered_args.
    cbn [Cores Memory cd vnc monitor drives ifaces set_drives].
    rewrite <- !app_assoc, !drive_section_app. cbn [drive_section flat_map].
    rewrite <- !app_assoc. reflexivity.
  - rewrite !with_flag_rendered by reflexivity.
    rewrite AddDrive_exec. cbn [cd set_drives drives ifaces vnc monitor].
    cbn [String.eqb Ascii.eqb Bool.eqb one_if app].
    rewrite !andb_false_r. cbn [one_if app].
    rewrite drive_options_app.
    destruct (ifaces m); cbn [one_if app]; now rewrite ?app_nil_r.
  - rewrite AddDrive_exec. cbn [drives set_drives]. now rewrite drive_section_app.
  - rewrite rendered_args_closed, seq_exec, !AddNetworkDevice_exec. unfold ordered_args.
    cbn [Cores Memory cd vnc monitor drives ifaces set_ifaces].
    replace (network_section ((ifaces m ++ [n1]) ++ [n2]))
      with (iface_section ((ifaces m ++ [n1]) ++ [n2]))
      by (destruct (ifaces m); reflexivity).
    rewrite !iface_section_app. cbn [iface_section flat_map].
    rewrite <- !app_assoc. reflexivity.
  - rewrite !network_flags_rendered, AddNetworkDevice_exec.
    cbn [ifaces set_ifaces]. now rewrite iface_options_app.
Qed.

(** C6. [AddDriveImage img] is [AddDrive] of the drive with the path and
    the format of [img]: called on the same descriptor, the two leave the
    same descriptor. *)
Theorem AddDriveImage_is_AddDrive (img : Image.t) (m : Machine) :
  AddDriveImage img m = AddDrive (Drive.mk (Image.Path img) (Image.Format img)) m
  /\ drives (execSt (AddDriveImage img) m)
     = (drives m ++ [Drive.mk (Image.Path img) (Image.Format img)])%list.
Proof.
  split; reflexivity.
Qed.

(* ================================================================= *)
(** * Rendering reads the descriptor and nothing else *)

(** C8. Rendering leaves the descriptor as it was, and rendering it twice
    in a row (same architecture, same KVM flag) gives the same binary name
    and the same argument list both times; the binary name depends on the
    architecture alone and the arguments on the descriptor and the KVM flag
    alone. *)
Theorem rendering_is_pure (m : Machine) (arch : string) (kvm : bool) :
  execSt (Start_render arch kvm) m = m
  /\ (first <- Start_render arch kvm ;;
      second <- Start_render arch kvm ;;
      ret (first, second)) m
     = ((evalSt (Start_render arch kvm) m, evalSt (Start_render arch kvm) m), m)
  /\ evalSt (Start_render arch kvm) m = ("qemu-system-" ++ arch, ordered_args m kvm)
  /\ rendered_binary m arch kvm = "qemu-system-" ++ arch
  /\ (forall arch', rendered_args m arch' kvm = rendered_args m arch kvm).
Proof.
  unfold execSt, evalSt, rendered_binary, rendered_args, bind, ret, evalSt.
  rewrite !Start_render_closed. cbv beta iota. cbn [fst snd].
  rewrite ?Start_render_closed. cbv beta iota.
  repeat split. intros arch'. now rewrite Start_render_closed.
Qed.

(* ================================================================= *)
(** * What an operation leaves alone *)

Lemma perform_keeps_sizing (o : operation) (m : Machine) :
  Cores (execSt (perform o) m) = Cores m
  /\ Memory (execSt (perform o) m) = Memory m.
Proof.
  destruct o; split; reflexivity.
Qed.

Lemma perform_all_keeps_sizing (ops : list operation) :
  forall m, Cores (execSt (perform_all ops) m) = Cores m
            /\ Memory (execSt (perform_all ops) m) = Memory m.
Proof.
  induction ops as [|o ops IH]; intros m.
  - split; reflexivity.
  - cbn [perform_all]. rewrite seq_exec.
    destruct (IH (execSt (perform o) m)) as [Hc Hm].
    destruct (perform_keeps_sizing o m) as [Hc' Hm'].
    split; congruence.
Qed.

(** C10. Each operation changes its own field and no other: [AddCDRom] the
    CD-ROM path, [AddDrive] and [AddDriveImage] the drive sequence, by one
    drive at its end, [AddNetworkDevice] the interface sequence, by one
    interface at its end, [AddVNC] the display endpoint, [AddMonitorUnix]
    the control-socket path. After any sequence of operations on a new
    descriptor, [Cores] and [Memory] are those given to [NewMachine]. *)
Theorem operations_frame (m : Machine) (dev : string) (d : Drive.t) (img : Image.t)
    (netdev : NetDev.t) (addr : string) (port : Z) :
  execSt (AddCDRom dev) m
  = mkMachine (Cores m) (Memory m) dev (vnc m) (monitor m) (drives m) (ifaces m)
  /\ execSt (AddDrive d) m
     = mkMachine (Cores m) (Memory m) (cd m) (vnc m) (monitor m)
                 (drives m ++ [d]) (ifaces m)
  /\ execSt (AddDriveImage img) m
     = mkMachine (Cores m) (Memory m) (cd m) (vnc m) (monitor m)
                 (drives m ++ [Drive.mk (Image.Path img) (Image.Format img)]) (ifaces m)
  /\ execSt (AddNetworkDevice netdev) m
     = mkMachine (Cores m) (Memory m) (cd m) (vnc m) (monitor m)
                 (drives m) (ifaces m ++ [netdev])
  /\ execSt (AddVNC addr port) m
     = mkMachine (Cores m) (Memory m) (cd m) (addr ++ ":" ++ strconv.Itoa port)
                 (monitor m) (drives m) (ifaces m)
  /\ execSt (AddMonitorUnix dev) m
     = mkMachine (Cores m) (Memory m) (cd m) (vnc m) dev (drives m) (ifaces m)
  /\ (forall (cores : Z) (memory : N),
        NewMachine cores memory = mkMachine cores memory "" "" "" [] [])
  /\ (forall (ops : list operation) (cores : Z) (memory : N),
        Cores (execSt (perform_all ops) (NewMachine cores memory)) = cores
        /\ Memory (execSt (perform_all ops) (NewMachine cores memory)) = memory).
Proof.
  repeat split.
  - now destruct (perform_all_keeps_sizing ops (NewMachine cores memory)) as [-> _].
  - now destruct (perform_all_keeps_sizing ops (NewMachine cores memory)) as [_ ->].
Qed.

(* ================================================================= *)
(** * The launch: an invariant of the two goroutines *)

Lemma snoc_split {A} (l before after : list A) (x y : A) :
  (l ++ [x] = before ++ y :: after)%list ->
  (after = [] /\ x = y /\ l = before)
  \/ (exists after', after = (after' ++ [x])%list /\ l = (before ++ y :: after')%list).
Proof.
  intros H. destruct (exists_last (l := y :: after)) as (init & z & Hlast);
    [discriminate |].
  destruct after as [|a after].
  - left. apply app_inj_tail in H. destruct H as [-> ->]. auto.
  - right.
    destruct (exists_last (l := a :: after)) as (after' & z' & Ha); [discriminate |].
    rewrite Ha in H.
    change (before ++ y :: after' ++ [z'])%list
      with (before ++ (y :: after') ++ [z'])%list in H.
    rewrite app_assoc in H. apply app_inj_tail in H. destruct H as [-> ->].
    exists after'. split; [exact Ha | reflexivity].
Qed.

Lemma justified_nil (arch : string) : deliveries_justified arch [].
Proof.
  intros before v after H. destruct before; discriminate.
Qed.

Lemma justified_snoc (arch : string) (l : list event) (ev : event) :
  is_receive ev = false ->
  deliveries_justified arch l ->
  deliveries_justified arch (l ++ [ev]).
Proof.
  intros Hev Hl before v after H.
  apply snoc_split in H. destruct H as [(_ & -> & _) | (after' & _ & Hl')].
  - discriminate.
  - now apply (Hl before v after').
Qed.

Lemma justified_receive (arch : string) (l : list event) (e : error) :
  In (EvChildExit (Some e)) l ->
  In (EvWaitReturned (Some e)) l ->
  deliveries_justified arch l ->
  deliveries_justified arch (l ++ [EvReceive (Some (fmt.Errorf_qemu arch e))]).
Proof.
  intros Hexit Hwait Hl before v after H.
  apply snoc_split in H. destruct H as [(_ & Hv & <-) | (after' & _ & Hl')].
  - injection Hv as <-. exists e. auto.
  - now apply (Hl before v after').
Qed.

Lemma in_of_filter {A} (f : A -> bool) (l : list A) (x : A) :
  filter f l = [x] -> In x l.
Proof.
  intros H. assert (Hin : In x (filter f l)) by (rewrite H; now left).
  now apply filter_In in Hin.
Qed.

Lemma launch_init_invariant (arch : string) (proc : Process) :
  launch_invariant arch proc launch_init.
Proof.
  unfold launch_invariant, launch_init; cbn.
  repeat split. apply justified_nil.
Qed.

Lemma step_invariant (arch : string) (proc : Process) (a : action) (s s' : Launch) :
  launch_invariant arch proc s ->
  step arch proc a s = Some s' ->
  launch_invariant arch proc s'.
Proof.
  destruct s as [f b c l]. unfold launch_invariant, step; cbn [fg bg child log].
  intros (Hfg & Hbg & Hch & Hord) Hstep.
  destruct a as [w| |].
  - (* the child exits *)
    destruct c as [|w0]; [| discriminate]. injection Hstep as <-.
    cbn [fg bg child log]. destruct Hch as [-> Hch]. snoc_filters.
    split; [exact Hfg |]. split; [exact Hbg |]. split; [now rewrite Hch |].
    apply justified_snoc; [reflexivity | exact Hord].
  - (* the background goroutine *)
    destruct b as [|v|]; [| discriminate | discriminate].
    destruct c as [|w]; [discriminate |]. injection Hstep as <-.
    cbn [fg bg child log]. snoc_filters. destruct Hbg as [Hw Hr].
    split; [exact Hfg |].
    split; [| split; [exact Hch | apply justified_snoc; [reflexivity | exact Hord]]].
    destruct w as [e|].
    + exists e. rewrite Hw. auto.
    + exists None. rewrite Hw. auto.
  - (* the calling goroutine *)
    destruct f as [| |r]; [| | discriminate].
    + injection Hstep as <-. cbn [fg bg child log]. snoc_filters.
      destruct Hfg as [Hfg Hrcv]. rewrite Hfg.
      split; [auto |]. split; [exact Hbg |]. split; [exact Hch |].
      apply justified_snoc; [reflexivity | exact Hord].
    + destruct Hfg as [Hfg Hrcv]. destruct b as [|v|].
      * injection Hstep as <-. cbn [fg bg child log]. snoc_filters.
        rewrite Hfg. split; [left; auto |]. split; [exact Hbg |].
        split; [exact Hch |].
        apply justified_snoc; [reflexivity | exact Hord].
      * injection Hstep as <-. cbn [fg bg child log]. snoc_filters.
        destruct Hbg as (e & -> & -> & Hw & Hr). rewrite Hfg, Hr. cbn [app].
        split; [right; exists e; auto |].
        split; [exists (Some e); split; [reflexivity | split; [exact Hw |]];
                right; exists e; auto |].
        split; [exact Hch |].
        apply justified_receive; [| | exact Hord].
        -- now apply (in_of_filter is_child_exit).
        -- now apply (in_of_filter is_wait_returned).
      * injection Hstep as <-. cbn [fg bg child log]. snoc_filters.
        rewrite Hfg. split; [left; auto |]. split; [exact Hbg |].
        split; [exact Hch |].
        apply justified_snoc; [reflexivity | exact Hord].
Qed.

Lemma run_invariant (arch : string) (proc : Process) (sched : list action) :
  forall s s', launch_invariant arch proc s ->
               run arch proc sched s = Some s' ->
               launch_invariant arch proc s'.
Proof.
  induction sched as [|a sched IH]; intros s s' Hs Hrun; cbn [run] in Hrun.
  - now injection Hrun as <-.
  - destruct (step arch proc a s) as [s1|] eqn:Hstep; [| discriminate].
    apply (IH s1 s'); [| exact Hrun]. now apply (step_invariant arch proc a s).
Qed.

Lemma reachable_invariant (arch : string) (proc : Process) (sched : list action)
    (s : Launch) :
  run arch proc sched launch_init = Some s -> launch_invariant arch proc s.
Proof.
  apply run_invariant, launch_init_invariant.
Qed.

Lemma run_app (arch : string) (proc : Process) (l1 l2 : list action) :
  forall s, run arch proc (l1 ++ l2) s
            = match run arch proc l1 s with
              | Some s' => run arch proc l2 s'
              | None => None
              end.
Proof.
  induction l1 as [|a l1 IH]; intros s; cbn [run app]; [reflexivity |].
  destruct (step arch proc a s); [apply IH | reflexivity].
Qed.

Lemma Start_command_closed (arch : string) (kvm : bool) (m : Machine) :
  Start_command arch kvm m
  = (mkCmd ("qemu-system-" ++ arch) (ordered_args m kvm) true, m).
Proof.
  unfold Start_command, bind, ret. now rewrite Start_render_closed.
Qed.

(** What [Start] can return once the child has been spawned. *)
Lemma returned_after_spawn (arch : string) (proc : Process) (sched : list action)
    (s : Launch) (r : result) :
  run arch proc sched launch_init = Some s ->
  fg s = FgReturned r ->
  r = (Some proc, None) \/ exists w, r = (None, Some (fmt.Errorf_qemu arch w)).
Proof.
  intros Hrun Hfg. apply reachable_invariant in Hrun.
  destruct Hrun as (H & _). rewrite Hfg in H.
  destruct H as [(_ & _ & ->) | (e & _ & _ & ->)]; [now left | right; now exists e].
Qed.

(** The caller is never blocked: it can always take its next step until it
    has returned, and two steps bring it from the start to its return. *)
Lemma foreground_runs (arch : string) (proc : Process) (s : Launch) :
  match fg s with
  | FgSleep => exists s', step arch proc Foreground s = Some s' /\ fg s' = FgSelect
  | FgSelect => exists s' r, step arch proc Foreground s = Some s' /\ fg s' = FgReturned r
  | FgReturned _ => step arch proc Foreground s = None
  end.
Proof.
  destruct s as [f b c l]. destruct f as [| |r]; cbn.
  - eexists; split; reflexivity.
  - destruct b as [|v|]; do 2 eexists; split; reflexivity.
  - reflexivity.
Qed.

(** C9. At any point of a launch the calling goroutine has done nothing, or
    slept once for 50ms, or slept once for 50ms and then made one read of
    [errc] that either took the [default] branch or received one value;
    neither step can block. Over the whole launch at most one value is
    received from [errc] and [cmd.Wait()] returns at most once; a received
    value is the wrapped error of a child that had exited with an error
    which [cmd.Wait()] had returned before. *)
Theorem grace_then_single_read (arch : string) (proc : Process)
    (sched : list action) (s : Launch) :
  run arch proc sched launch_init = Some s ->
  match fg s with
  | FgSleep => filter is_fg_event (log s) = []
  | FgSelect => filter is_fg_event (log s) = [EvSleep 50000000]
  | FgReturned r =>
      (filter is_fg_event (log s) = [EvSleep 50000000; EvDefault]
       /\ filter is_receive (log s) = []
       /\ r = (Some proc, None))
      \/ (exists e,
            filter is_fg_event (log s)
            = [EvSleep 50000000; EvReceive (Some (fmt.Errorf_qemu arch e))]
            /\ filter is_receive (log s) = [EvReceive (Some (fmt.Errorf_qemu arch e))]
            /\ r = (None, Some (fmt.Errorf_qemu arch e)))
  end
  /\ match fg s with
     | FgSleep => exists s', step arch proc Foreground s = Some s' /\ fg s' = FgSelect
     | FgSelect =>
         exists s' r, step arch proc Foreground s = Some s' /\ fg s' = FgReturned r
     | FgReturned _ => step arch proc Foreground s = None
     end
  /\ (List.length (filter is_receive (log s)) <= 1)%nat
  /\ (List.length (filter is_wait_returned (log s)) <= 1)%nat
  /\ forall before v after,
       log s = (before ++ EvReceive v :: after)%list ->
       exists e, v = Some (fmt.Errorf_qemu arch e)
                 /\ In (EvChildExit (Some e)) before
                 /\ In (EvWaitReturned (Some e)) before.
Proof.
  intros Hrun. apply reachable_invariant in Hrun.
  destruct Hrun as (Hfg & Hbg & Hch & Hord).
  split; [| split; [apply foreground_runs | split; [| split; [| exact Hord]]]].
  - destruct (fg s); [tauto | tauto | exact Hfg].
  - destruct (bg s) as [|v|].
    + destruct Hbg as [_ ->]. cbn. lia.
    + destruct Hbg as (e & _ & _ & _ & ->). cbn. lia.
    + destruct Hbg as (w & _ & _ & [[_ ->] | (e & _ & ->)]); cbn; lia.
  - destruct (bg s) as [|v|].
    + destruct Hbg as [-> _]. cbn. lia.
    + destruct Hbg as (e & _ & _ & -> & _). cbn. lia.
    + destruct Hbg as (w & _ & -> & _). cbn. lia.
Qed.

(** The claim on the launch of a child that fails at once. *)
Lemma grace_then_single_read_witness :
  run "x86_64" (mkProcess 4242) early_exit_schedule launch_init
  = Some (state_after "x86_64" (mkProcess 4242) early_exit_schedule)
  /\ fg (state_after "x86_64" (mkProcess 4242) early_exit_schedule)
     = FgReturned (None, Some (mkError "'qemu-system-x86_64': exit status 1"))
  /\ (List.length (filter is_receive
        (log (state_after "x86_64" (mkProcess 4242) early_exit_schedule))) <= 1)%nat.
Proof.
  split; [reflexivity |]. split; [reflexivity |].
  exact (proj1 (proj2 (proj2
           (grace_then_single_read "x86_64" (mkProcess 4242) early_exit_schedule
              (state_after "x86_64" (mkProcess 4242) early_exit_schedule)
              eq_refl)))).
Defined.

(* ================================================================= *)
(** * What [Start] returns *)

Lemma Start_closed (os : host) (sched : list action) (arch : string) (kvm : bool)
    (m : Machine) :
  Start os sched arch kvm m
  = (match os (evalSt (Start_command arch kvm) m) with
     | inr err => Some (None, Some err)
     | inl proc =>
         match run arch proc sched launch_init with
         | Some s => match fg s with FgReturned r => Some r | _ => None end
         | None => None
         end
     end, m).
Proof.
  unfold Start, evalSt, bind. rewrite Start_command_closed. cbn [fst].
  destruct (os _) as [proc | err]; [| reflexivity].
  destruct (run arch proc sched launch_init) as [s |]; [| reflexivity].
  destruct (fg s); reflexivity.
Qed.

(** [Start] on a host that spawns: the handle when the caller takes the
    [default] branch, the wrapped error when the background goroutine is at
    its send by then. *)
Lemma Start_returns_handle (os : host) (arch : string) (kvm : bool) (m : Machine)
    (proc : Process) :
  os (evalSt (Start_command arch kvm) m) = inl proc ->
  Start_returns os arch kvm m (Some proc, None) m.
Proof.
  intros Hos. exists healthy_schedule. rewrite Start_closed, Hos. reflexivity.
Qed.

Lemma Start_returns_early_exit (os : host) (arch : string) (kvm : bool) (m : Machine)
    (proc : Process) (w : error) :
  os (evalSt (Start_command arch kvm) m) = inl proc ->
  Start_returns os arch kvm m (None, Some (fmt.Errorf_qemu arch w)) m.
Proof.
  intros Hos. exists [ChildExits (Some w); Background; Foreground; Foreground].
  rewrite Start_closed, Hos. reflexivity.
Qed.

Lemma Start_returns_spawn_error (os : host) (arch : string) (kvm : bool) (m : Machine)
    (err : error) :
  os (evalSt (Start_command arch kvm) m) = inr err ->
  Start_returns os arch kvm m (None, Some err) m.
Proof.
  intros Hos. exists []. rewrite Start_closed, Hos. reflexivity.
Qed.

(** Whatever [Start] returns, by how the spawn went. *)
Lemma Start_returns_cases (os : host) (arch : string) (kvm : bool) (m : Machine)
    (r : result) (m' : Machine) :
  Start_returns os arch kvm m r m' ->
  m' = m
  /\ match os (evalSt (Start_command arch kvm) m) with
     | inr err => r = (None, Some err)
     | inl proc =>
         r = (Some proc, None)
         \/ exists w, r = (None, Some (fmt.Errorf_qemu arch w))
     end.
Proof.
  intros [sched H]. rewrite Start_closed in H.
  destruct (os (evalSt (Start_command arch kvm) m)) as [proc | err].
  - destruct (run arch proc sched launch_init) as [s |] eqn:Hrun; [| discriminate].
    destruct (fg s) as [| |r0] eqn:Hfg; try discriminate.
    injection H as -> ->. split; [reflexivity |].
    now apply (returned_after_spawn arch proc sched s).
  - injection H as <- <-. split; reflexivity.
Qed.

(** C3. [Start] returns a handle exactly when it returns no error. When
    the spawn fails it returns the host's error as it is, and no handle.
    After a spawn, it returns the handle and no error, or no handle and an
    error whose text is ['qemu-system-<arch>': <the child's error>]; it
    returns the latter whenever the child has exited with an error and the
    background goroutine has it from [cmd.Wait()] by the time the caller
    comes to its [select]. *)
Theorem Start_handle_or_error (os : host) (arch : string) (kvm : bool) (m : Machine)
    (r : result) (m' : Machine) :
  Start_returns os arch kvm m r m' ->
  (fst r <> None <-> snd r = None)
  /\ match os (evalSt (Start_command arch kvm) m) with
     | inr err => r = (None, Some err)
     | inl proc =>
         r = (Some proc, None)
         \/ exists w,
              r = (None, Some (fmt.Errorf_qemu arch w))
              /\ Error (fmt.Errorf_qemu arch w)
                 = "'qemu-system-" ++ arch ++ "': " ++ Error w
     end
  /\ forall proc sched s w,
       os (evalSt (Start_command arch kvm) m) = inl proc ->
       run arch proc sched launch_init = Some s ->
       fg s = FgSelect ->
       child s = Exited (Some w) ->
       bg s <> BgWait ->
       exists s',
         run arch proc (sched ++ [Foreground]) launch_init = Some s'
         /\ fg s' = FgReturned (None, Some (fmt.Errorf_qemu arch w))
         /\ Start_returns os arch kvm m (None, Some (fmt.Errorf_qemu arch w)) m.
Proof.
  intros H. apply Start_returns_cases in H. destruct H as [_ H].
  split; [| split].
  - destruct (os (evalSt (Start_command arch kvm) m)) as [proc | err].
    + destruct H as [-> | (w & ->)]; cbn; split; congruence.
    + rewrite H. cbn. split; congruence.
  - destruct (os (evalSt (Start_command arch kvm) m)) as [proc | err]; [| exact H].
    destruct H as [-> | (w & ->)]; [now left | right; exists w; now split].
  - clear H. intros proc sched s w Hos Hrun Hfg Hch Hbg.
    pose proof (reachable_invariant arch proc sched s Hrun) as (Ifg & Ibg & _).
    assert (Hsend : bg s = BgSend (Some (fmt.Errorf_qemu arch w))).
    { destruct (bg s) as [|v|]; [contradiction | |].
      - destruct Ibg as (e & -> & He & _). rewrite Hch in He. now injection He as <-.
      - rewrite Hfg in Ifg. destruct Ifg as [_ Hr].
        destruct Ibg as (w' & Hw' & _ & [[-> _] | (e & _ & He)]).
        + rewrite Hch in Hw'. discriminate.
        + rewrite Hr in He. discriminate. }
    assert (Hnext : run arch proc (sched ++ [Foreground]) launch_init
                    = Some (mkLaunch (FgReturned (None, Some (fmt.Errorf_qemu arch w)))
                              BgReturned (child s)
                              (append (log s) (EvReceive (Some (fmt.Errorf_qemu arch w)))))).
    { rewrite run_app, Hrun. cbn [run step]. now rewrite Hfg, Hsend. }
    eexists. split; [exact Hnext |]. split; [reflexivity |].
    exists (sched ++ [Foreground])%list. rewrite Start_closed, Hos, Hnext. reflexivity.
Qed.

Lemma early_exit_run :
  Start_returns spawning_host "x86_64" false scenario_machine
    (None, Some (mkError "'qemu-system-x86_64': exit status 1")) scenario_machine.
Proof.
  apply (Start_returns_early_exit spawning_host "x86_64" false scenario_machine
           (mkProcess 4242) exit_status_1).
  reflexivity.
Qed.

(** The claim on a child that exits with status 1 before the caller wakes
    up: no handle, and the wrapped error. *)
Lemma Start_handle_or_error_witness :
  Start_returns spawning_host "x86_64" false scenario_machine
    (None, Some (mkError "'qemu-system-x86_64': exit status 1")) scenario_machine
  /\ (fst (@None Process, Some (mkError "'qemu-system-x86_64': exit status 1")) <> None
      <-> snd (@None Process, Some (mkError "'qemu-system-x86_64': exit status 1")) = None).
Proof.
  split; [exact early_exit_run |].
  exact (proj1 (Start_handle_or_error spawning_host "x86_64" false scenario_machine
                  _ scenario_machine early_exit_run)).
Defined.

(** A child that fails after the caller has looked is not reported: [Start]
    has returned the handle, and the background goroutine stays at its send. *)
Lemma late_exit_not_reported (arch : string) (proc : Process) :
  fg (state_after arch proc late_exit_schedule) = FgReturned (Some proc, None)
  /\ bg (state_after arch proc late_exit_schedule)
     = BgSend (Some (fmt.Errorf_qemu arch exit_status_1))
  /\ step arch proc Background (state_after arch proc late_exit_schedule) = None
  /\ step arch proc Foreground (state_after arch proc late_exit_schedule) = None.
Proof.
  repeat split.
Qed.

(* ================================================================= *)
(** * No validation of the descriptor *)

Lemma Itoa_decimal (z : Z) :
  option_map Z.of_int (NilZero.int_of_string (strconv.Itoa z)) = Some z.
Proof.
  unfold strconv.Itoa. rewrite NilZero.isi.
  - cbn [option_map]. now rewrite DecimalZ.of_to.
  - destruct z; cbn; try discriminate.
    intros [= H]. now apply (DecimalPos.Unsigned.to_uint_nonnil p).
  - destruct z; cbn; try discriminate.
    intros [= H]. now apply (DecimalPos.Unsigned.to_uint_nonnil p).
Qed.

Lemma FormatUint10_decimal (n : N) :
  option_map N.of_uint (NilZero.uint_of_string (strconv.FormatUint10 n)) = Some n.
Proof.
  unfold strconv.FormatUint10. rewrite NilZero.usu.
  - cbn [option_map]. now rewrite DecimalN.Unsigned.of_to.
  - destruct n; cbn; [discriminate | apply DecimalPos.Unsigned.to_uint_nonnil].
Qed.

(** C7. [Start] checks nothing in the descriptor. Whatever the descriptor,
    the rendering begins with [-smp], the decimal text of [Cores], [-m] and
    the decimal text of [Memory], and carries each interface id as it was
    given; [Start] goes on to the spawn and returns what the host's
    [cmd.Start()] gives, and an error it returns is either the host's or
    the wrapped error of the child, never one about the descriptor. So a
    descriptor with zero cores, with a negative core count or with two
    interfaces of one id is rendered like any other. *)
Theorem no_validation (os : host) (m : Machine) (arch : string) (kvm : bool) :
  (exists rest,
     rendered_args m arch kvm
     = "-smp" :: strconv.Itoa (Cores m)
       :: "-m" :: strconv.FormatUint10 (Memory m) :: rest)
  /\ option_map Z.of_int (NilZero.int_of_string (strconv.Itoa (Cores m)))
     = Some (Cores m)
  /\ option_map N.of_uint (NilZero.uint_of_string (strconv.FormatUint10 (Memory m)))
     = Some (Memory m)
  /\ with_flags "-netdev" "-device" (options (rendered_args m arch kvm))
     = flat_map (fun i => [("-netdev", Some (backend_value i));
                           ("-device", Some (device_value i))]) (ifaces m)
  /\ (forall i : NetDev.t,
        backend_value i = NetDev.Type_ i ++ ",id=" ++ NetDev.ID i ++ ifname_suffix i
        /\ device_value i = "virtio-net,netdev=" ++ NetDev.ID i ++ mac_suffix i)
  /\ match os (evalSt (Start_command arch kvm) m) with
     | inl proc => Start_returns os arch kvm m (Some proc, None) m
     | inr err => Start_returns os arch kvm m (None, Some err) m
     end
  /\ (forall r m',
        Start_returns os arch kvm m r m' ->
        forall e, snd r = Some e ->
                  os (evalSt (Start_command arch kvm) m) = inr e
                  \/ exists w, e = fmt.Errorf_qemu arch w)
  /\ rendered_args (NewMachine 0 0) arch false
     = ["-smp"; "0"; "-m"; "0"; "-net"; "none"]
  /\ rendered_args (NewMachine (-3) 16) arch false
     = ["-smp"; "-3"; "-m"; "16"; "-net"; "none"]
  /\ rendered_args unchecked_machine arch false
     = ["-smp"; "0"; "-m"; "0";
        "-netdev"; "user,id=net0"; "-device"; "virtio-net,netdev=net0";
        "-netdev"; "tap,id=net0,ifname=tap0";
        "-device"; "virtio-net,netdev=net0,mac=52:54:00:12:34:56"].
Proof.
  split; [| split; [| split; [| split; [| split; [| split; [| split]]]]]].
  - rewrite rendered_args_closed. unfold ordered_args, sizing_section.
    eexists. reflexivity.
  - apply Itoa_decimal.
  - apply FormatUint10_decimal.
  - apply network_flags_rendered.
  - intros i. unfold backend_value, device_value. now rewrite !append_assoc.
  - destruct (os (evalSt (Start_command arch kvm) m)) as [proc | err] eqn:Hos.
    + now apply Start_returns_handle.
    + now apply Start_returns_spawn_error.
  - intros r m' H e He. apply Start_returns_cases in H. destruct H as [_ H].
    destruct (os (evalSt (Start_command arch kvm) m)) as [proc | err].
    + destruct H as [-> | (w & ->)]; [discriminate |].
      injection He as <-. right. now exists w.
    + rewrite H in He. injection He as <-. now left.
  - rewrite !rendered_args_closed. repeat split.
Qed.

(** The claim on the descriptor with no cores and a repeated interface id,
    on a host where the binary is missing: the only error is the host's. *)
Lemma no_validation_witness :
  Start_returns failing_host "x86_64" false unchecked_machine
    (None, Some (mkError "exec: qemu-system-x86_64: executable file not found in $PATH"))
    unchecked_machine
  /\ rendered_args unchecked_machine "x86_64" false
     = ["-smp"; "0"; "-m"; "0";
        "-netdev"; "user,id=net0"; "-device"; "virtio-net,netdev=net0";
        "-netdev"; "tap,id=net0,ifname=tap0";
        "-device"; "virtio-net,netdev=net0,mac=52:54:00:12:34:56"].
Proof.
  split.
  - exact (proj1 (proj2 (proj2 (proj2 (proj2 (proj2
             (no_validation failing_host unchecked_machine "x86_64" false))))))).
  - exact (proj2 (proj2 (proj2 (proj2 (proj2 (proj2 (proj2 (proj2 (proj2
             (no_validation failing_host unchecked_machine "x86_64" false)))))))))).
Defined.

(** The claim on the descriptor with two interfaces, the second with an
    interface name and a MAC address. *)
Lemma network_flags_witness :
  with_flag "-net" (options (rendered_args unchecked_machine "x86_64" true)) = []
  /\ with_flags "-netdev" "-device"
       (options (rendered_args unchecked_machine "x86_64" true))
     = [("-netdev", Some "user,id=net0");
        ("-device", Some "virtio-net,netdev=net0");
        ("-netdev", Some "tap,id=net0,ifname=tap0");
        ("-device", Some "virtio-net,netdev=net0,mac=52:54:00:12:34:56")].
Proof.
  split.
  - exact (proj1 (network_flags unchecked_machine "x86_64" true)).
  - exact (proj1 (proj2 (network_flags unchecked_machine "x86_64" true))).
Defined.

(* ================================================================= *)
(** * Building a descriptor: sequences of operations *)

Lemma Machine_eta (m : Machine) :
  mkMachine (Cores m) (Memory m) (cd m) (vnc m) (monitor m) (drives m) (ifaces m) = m.
Proof.
  now destruct m.
Qed.

Lemma perform_all_closed (ops : list operation) (m : Machine) :
  execSt (perform_all ops) m
  = mkMachine (Cores m) (Memory m)
      (final_cd ops (cd m)) (final_vnc ops (vnc m)) (final_monitor ops (monitor m))
      (drives m ++ attached_drives ops) (ifaces m ++ attached_ifaces ops).
Proof.
  revert m. induction ops as [|o ops IH]; intros m.
  - cbn. rewrite !app_nil_r. symmetry. apply Machine_eta.
  - cbn [perform_all]. rewrite seq_exec, IH.
    destruct o; cbn; unfold append; rewrite <- ?app_assoc; cbn [app]; reflexivity.
Qed.

(** X1. After any sequence of operations a descriptor has the sizing it
    had, in each of the three string fields the value of the last call of
    that field's setter (its old value when there was none), and its old
    drives and interfaces followed by the attached ones in the order of the
    calls. *)
Theorem build_summary (ops : list operation) (m : Machine) :
  Cores (execSt (perform_all ops) m) = Cores m
  /\ Memory (execSt (perform_all ops) m) = Memory m
  /\ cd (execSt (perform_all ops) m) = final_cd ops (cd m)
  /\ vnc (execSt (perform_all ops) m) = final_vnc ops (vnc m)
  /\ monitor (execSt (perform_all ops) m) = final_monitor ops (monitor m)
  /\ drives (execSt (perform_all ops) m) = (drives m ++ attached_drives ops)%list
  /\ ifaces (execSt (perform_all ops) m) = (ifaces m ++ attached_ifaces ops)%list.
Proof.
  rewrite perform_all_closed. repeat split.
Qed.

(** X2. Two operations that assign to different fields can be called in
    either order: the descriptor is the same afterwards. *)
Theorem operations_commute (o1 o2 : operation) (m : Machine) :
  target o1 <> target o2 ->
  execSt (perform o1 >> perform o2) m = execSt (perform o2 >> perform o1) m.
Proof.
  intros H.
  destruct o1, o2; cbn in H; try (exfalso; apply H; reflexivity); reflexivity.
Qed.

(** The theorem on a CD-ROM and a drive attached to a new descriptor. *)
Lemma operations_commute_witness :
  target (OpAddCDRom "/boot.iso") <> target (OpAddDrive (Drive.mk "/vm.qcow2" "qcow2"))
  /\ execSt (perform (OpAddCDRom "/boot.iso")
             >> perform (OpAddDrive (Drive.mk "/vm.qcow2" "qcow2"))) (NewMachine 2 1024)
     = execSt (perform (OpAddDrive (Drive.mk "/vm.qcow2" "qcow2"))
               >> perform (OpAddCDRom "/boot.iso")) (NewMachine 2 1024).
Proof.
  split; [discriminate |].
  apply (operations_commute (OpAddCDRom "/boot.iso")
           (OpAddDrive (Drive.mk "/vm.qcow2" "qcow2")) (NewMachine 2 1024)).
  discriminate.
Defined.

Lemma final_vnc_set (ops : list operation) :
  forall cur, is_set cur = true -> is_set (final_vnc ops cur) = true.
Proof.
  induction ops as [|o ops IH]; intros cur Hcur; [exact Hcur |].
  destruct o; cbn [final_vnc]; try (now apply IH).
  apply IH. unfold fmt.Sprintf_addr_port. apply is_set_append_l.
Qed.

(** X3. A display, once attached, stays: whatever operations follow
    [AddVNC], the rendering holds exactly one [-vnc] pair, with the
    endpoint of the last [AddVNC]. (No argument of [AddVNC] gives the empty
    string that would unset the field.) *)
Theorem display_stays (ops : list operation) (addr : string) (port : Z)
    (m : Machine) (arch : string) (kvm : bool) :
  with_flag "-vnc"
    (options (rendered_args (execSt (AddVNC addr port >> perform_all ops) m) arch kvm))
  = [("-vnc", Some (final_vnc ops (addr ++ ":" ++ strconv.Itoa port)))]
  /\ final_vnc ops (addr ++ ":" ++ strconv.Itoa port) <> "".
Proof.
  assert (Hset : is_set (final_vnc ops (addr ++ ":" ++ strconv.Itoa port)) = true)
    by apply final_vnc_set, is_set_append_l.
  split; [| now apply is_set_true].
  rewrite with_flag_rendered by reflexivity.
  rewrite seq_exec, perform_all_closed, AddVNC_exec.
  cbn [Cores Memory cd vnc monitor drives ifaces set_vnc].
  rewrite Hset.
  cbn [String.eqb Ascii.eqb Bool.eqb one_if app andb].
  rewrite !andb_false_r. cbn [one_if app].
  destruct (ifaces m ++ attached_ifaces ops)%list; reflexivity.
Qed.

(* ================================================================= *)
(** * The shape of the rendered arguments *)

Lemma drive_options_ok (ds : list Drive.t) :
  forallb option_ok (drive_options ds) = true.
Proof.
  induction ds as [|d ds IH]; [reflexivity | exact IH].
Qed.

Lemma iface_options_ok (ifs : list NetDev.t) :
  forallb option_ok (iface_options ifs) = true.
Proof.
  induction ifs as [|i ifs IH]; [reflexivity | exact IH].
Qed.

(** X4. Read left to right, the rendered arguments are always complete
    options: each flag is one of the ten that [Start] writes, [-enable-kvm]
    stands alone and every other flag is followed by its value; the list
    never ends in a flag that lacks its value. *)
Theorem rendered_options_complete (m : Machine) (arch : string) (kvm : bool) :
  forallb option_ok (options (rendered_args m arch kvm)) = true.
Proof.
  rewrite options_rendered. unfold ordered_options.
  rewrite !forallb_app, drive_options_ok.
  assert (Hnet : forallb option_ok (network_options (ifaces m)) = true).
  { destruct (ifaces m) as [|i ifs]; [reflexivity |].
    unfold network_options. apply iface_options_ok. }
  rewrite Hnet.
  destruct kvm, (is_set (cd m)), (is_set (vnc m)), (is_set (monitor m)); reflexivity.
Qed.

Lemma drive_section_length (ds : list Drive.t) :
  List.length (drive_section ds) = (2 * List.length ds)%nat.
Proof.
  induction ds as [|d ds IH]; [reflexivity |].
  unfold drive_section in *. cbn [flat_map List.length app]. rewrite IH. lia.
Qed.

Lemma iface_section_length (ifs : list NetDev.t) :
  List.length (iface_section ifs) = (4 * List.length ifs)%nat.
Proof.
  induction ifs as [|i ifs IH]; [reflexivity |].
  unfold iface_section in *. cbn [flat_map List.length app]. rewrite IH. lia.
Qed.

(** X5. The number of rendered arguments: four for the sizing, one for
    KVM, two for each of the CD-ROM, the display and the control socket
    that is set, two per drive, and two for [-net none] or four per
    interface. It is never less than six. *)
Theorem rendered_args_length (m : Machine) (arch : string) (kvm : bool) :
  List.length (rendered_args m arch kvm) = args_count m kvm
  /\ (6 <= List.length (rendered_args m arch kvm))%nat.
Proof.
  assert (H : List.length (rendered_args m arch kvm) = args_count m kvm).
  { rewrite rendered_args_closed. unfold ordered_args, args_count.
    rewrite !length_app, drive_section_length.
    assert (Hnet : List.length (network_section (ifaces m))
                   = match ifaces m with
                     | [] => 2%nat
                     | _ :: _ => (4 * List.length (ifaces m))%nat
                     end).
    { destruct (ifaces m) as [|i ifs]; [reflexivity |].
      unfold network_section. apply iface_section_length. }
    rewrite Hnet.
    unfold sizing_section, kvm_section, cdrom_section, display_section, control_section.
    destruct kvm, (is_set (cd m)), (is_set (vnc m)), (is_set (monitor m));
      cbn [List.length]; lia. }
  split; [exact H |]. rewrite H. unfold args_count.
  destruct (ifaces m) as [|i ifs]; cbn [List.length]; lia.
Qed.

(** X6. Asking for KVM changes one argument only: the rendering with KVM is
    the rendering without it with [-enable-kvm] put in after the first
    four arguments. *)
Theorem kvm_adds_one_argument (m : Machine) (arch : string) :
  rendered_args m arch true
  = (firstn 4 (rendered_args m arch false)
     ++ "-enable-kvm" :: skipn 4 (rendered_args m arch false))%list.
Proof.
  rewrite !rendered_args_closed. reflexivity.
Qed.

(* ================================================================= *)
(** * What a rendering tells about the descriptor *)

Lemma string_length_append (a b : string) :
  String.length (a ++ b) = (String.length a + String.length b)%nat.
Proof.
  induction a as [|c a IH]; cbn; [reflexivity | now rewrite IH].
Qed.

Lemma append_cancel_r (s a b : string) : a ++ s = b ++ s -> a = b.
Proof.
  revert b. induction a as [|c a IH]; intros [|c' b] H.
  - reflexivity.
  - apply (f_equal String.length) in H. cbn in H.
    rewrite string_length_append in H. lia.
  - apply (f_equal String.length) in H. cbn in H.
    rewrite string_length_append in H. lia.
  - cbn in H. injection H as -> H. f_equal. now apply IH.
Qed.

Lemma Itoa_inj (a b : Z) : strconv.Itoa a = strconv.Itoa b -> a = b.
Proof.
  intros H. pose proof (Itoa_decimal a) as Ha. rewrite H, Itoa_decimal in Ha.
  now injection Ha.
Qed.

Lemma FormatUint10_inj (a b : N) :
  strconv.FormatUint10 a = strconv.FormatUint10 b -> a = b.
Proof.
  intros H. pose proof (FormatUint10_decimal a) as Ha.
  rewrite H, FormatUint10_decimal in Ha. now injection Ha.
Qed.

Lemma one_if_set_inj (f : string) (a b : string) (va vb : string) :
  one_if (is_set a) (f, Some va) = one_if (is_set b) (f, Some vb) ->
  (is_set a = true -> is_set b = true -> va = vb -> a = b) ->
  a = b.
Proof.
  intros H Hv.
  destruct (is_set a) eqn:Ea, (is_set b) eqn:Eb; cbn in H; try discriminate.
  - injection H as H. now apply Hv.
  - apply is_set_false in Ea, Eb. congruence.
Qed.

Lemma iface_options_length (ifs : list NetDev.t) :
  List.length (iface_options ifs) = (2 * List.length ifs)%nat.
Proof.
  induction ifs as [|i ifs IH]; [reflexivity |].
  unfold iface_options in *. cbn [flat_map List.length app]. rewrite IH. lia.
Qed.

Lemma smp_option (m : Machine) (arch : string) (kvm : bool) :
  with_flag "-smp" (options (rendered_args m arch kvm)) = [("-smp", Some (strconv.Itoa (Cores m)))].
Proof.
  rewrite with_flag_rendered by reflexivity.
  destruct (ifaces m), kvm, (is_set (cd m)), (is_set (vnc m)), (is_set (monitor m));
    cbn; rewrite ?app_nil_r; reflexivity.
Qed.

Lemma m_option (m : Machine) (arch : string) (kvm : bool) :
  with_flag "-m" (options (rendered_args m arch kvm)) = [("-m", Some (strconv.FormatUint10 (Memory m)))].
Proof.
  rewrite with_flag_rendered by reflexivity.
  destruct (ifaces m), kvm, (is_set (cd m)), (is_set (vnc m)), (is_set (monitor m));
    cbn; rewrite ?app_nil_r; reflexivity.
Qed.

Lemma kvm_option (m : Machine) (arch : string) (kvm : bool) :
  with_flag "-enable-kvm" (options (rendered_args m arch kvm)) = one_if kvm ("-enable-kvm", None).
Proof.
  rewrite with_flag_rendered by reflexivity.
  destruct (ifaces m), kvm, (is_set (cd m)), (is_set (vnc m)), (is_set (monitor m));
    cbn; rewrite ?app_nil_r; reflexivity.
Qed.

Lemma cdrom_option (m : Machine) (arch : string) (kvm : bool) :
  with_flag "-cdrom" (options (rendered_args m arch kvm)) = one_if (is_set (cd m)) ("-cdrom", Some (cd m)).
Proof.
  rewrite with_flag_rendered by reflexivity.
  destruct (ifaces m), kvm, (is_set (cd m)), (is_set (vnc m)), (is_set (monitor m));
    cbn; rewrite ?app_nil_r; reflexivity.
Qed.

Lemma vnc_option (m : Machine) (arch : string) (kvm : bool) :
  with_flag "-vnc" (options (rendered_args m arch kvm)) = one_if (is_set (vnc m)) ("-vnc", Some (vnc m)).
Proof.
  rewrite with_flag_rendered by reflexivity.
  destruct (ifaces m), kvm, (is_set (cd m)), (is_set (vnc m)), (is_set (monitor m));
    cbn; rewrite ?app_nil_r; reflexivity.
Qed.

Lemma qmp_option (m : Machine) (arch : string) (kvm : bool) :
  with_flag "-qmp" (options (rendered_args m arch kvm)) = one_if (is_set (monitor m)) ("-qmp", Some (control_value (monitor m))).
Proof.
  rewrite with_flag_rendered by reflexivity.
  destruct (ifaces m), kvm, (is_set (cd m)), (is_set (vnc m)), (is_set (monitor m));
    cbn; rewrite ?app_nil_r; reflexivity.
Qed.

Lemma drive_options_rendered (m : Machine) (arch : string) (kvm : bool) :
  with_flag "-drive" (options (rendered_args m arch kvm)) = drive_options (drives m).
Proof.
  rewrite with_flag_rendered by reflexivity.
  destruct (ifaces m), kvm, (is_set (cd m)), (is_set (vnc m)), (is_set (monitor m));
    cbn; rewrite ?app_nil_r; reflexivity.
Qed.

(** X7. The rendered arguments determine the sizing, the KVM flag, the
    CD-ROM image, the display endpoint and the control-socket path, and how
    many drives and interfaces there are: two descriptors with the same
    rendering agree on all of these. *)
Theorem rendering_determines (m1 m2 : Machine) (arch1 arch2 : string)
    (kvm1 kvm2 : bool) :
  rendered_args m1 arch1 kvm1 = rendered_args m2 arch2 kvm2 ->
  Cores m1 = Cores m2
  /\ Memory m1 = Memory m2
  /\ kvm1 = kvm2
  /\ cd m1 = cd m2
  /\ vnc m1 = vnc m2
  /\ monitor m1 = monitor m2
  /\ List.length (drives m1) = List.length (drives m2)
  /\ List.length (ifaces m1) = List.length (ifaces m2).
Proof.
  intros H.
  assert (Hf : forall f, with_flag f (options (rendered_args m1 arch1 kvm1))
                         = with_flag f (options (rendered_args m2 arch2 kvm2)))
    by (intros f; now rewrite H).
  assert (Hn : with_flags "-netdev" "-device" (options (rendered_args m1 arch1 kvm1))
               = with_flags "-netdev" "-device" (options (rendered_args m2 arch2 kvm2)))
    by now rewrite H.
  rewrite !network_flags_rendered in Hn.
  pose proof (Hf "-smp") as Hsmp. rewrite !smp_option in Hsmp.
  pose proof (Hf "-m") as Hm. rewrite !m_option in Hm.
  pose proof (Hf "-enable-kvm") as Hkvm. rewrite !kvm_option in Hkvm.
  pose proof (Hf "-cdrom") as Hcd. rewrite !cdrom_option in Hcd.
  pose proof (Hf "-vnc") as Hvnc. rewrite !vnc_option in Hvnc.
  pose proof (Hf "-qmp") as Hqmp. rewrite !qmp_option in Hqmp.
  pose proof (Hf "-drive") as Hdrive. rewrite !drive_options_rendered in Hdrive.
  clear Hf H.
  repeat split.
  - injection Hsmp as Hsmp. now apply Itoa_inj.
  - injection Hm as Hm. now apply FormatUint10_inj.
  - destruct kvm1, kvm2; try reflexivity; discriminate.
  - now apply (one_if_set_inj "-cdrom" (cd m1) (cd m2) (cd m1) (cd m2)).
  - now apply (one_if_set_inj "-vnc" (vnc m1) (vnc m2) (vnc m1) (vnc m2)).
  - apply (one_if_set_inj "-qmp" (monitor m1) (monitor m2)
             (control_value (monitor m1)) (control_value (monitor m2)));
      [exact Hqmp |].
    intros _ _ Hv. unfold control_value in Hv. cbn in Hv.
    injection Hv as Hv. now apply (append_cancel_r ",server,nowait").
  - apply (f_equal (@List.length _)) in Hdrive. unfold drive_options in Hdrive.
    now rewrite !length_map in Hdrive.
  - apply (f_equal (@List.length _)) in Hn. rewrite !iface_options_length in Hn. lia.
Qed.

(** Two descriptors that differ in their drive and render alike: the
    theorem on them. *)
Lemma rendering_determines_witness :
  rendered_args (execSt (AddDrive (Drive.mk "/a,format=raw" "qcow2")) (NewMachine 2 1024))
    "x86_64" false
  = rendered_args (execSt (AddDrive (Drive.mk "/a" "raw,format=qcow2")) (NewMachine 2 1024))
      "aarch64" false
  /\ List.length (drives (execSt (AddDrive (Drive.mk "/a,format=raw" "qcow2"))
                            (NewMachine 2 1024)))
     = List.length (drives (execSt (AddDrive (Drive.mk "/a" "raw,format=qcow2"))
                              (NewMachine 2 1024))).
Proof.
  split; [reflexivity |].
  exact (proj1 (proj2 (proj2 (proj2 (proj2 (proj2 (proj2
           (rendering_determines
              (execSt (AddDrive (Drive.mk "/a,format=raw" "qcow2")) (NewMachine 2 1024))
              (execSt (AddDrive (Drive.mk "/a" "raw,format=qcow2")) (NewMachine 2 1024))
              "x86_64" "aarch64" false false eq_refl)))))))).
Defined.

(** X8. The path and the format of a drive are written into the [-drive]
    value as they are, commas included: a drive whose path ends in
    [,format=f] and a drive whose format begins with [f,format=] are two
    drives with one rendering. *)
Theorem drive_values_not_escaped (m : Machine) (p f g : string)
    (arch : string) (kvm : bool) :
  Drive.mk (p ++ ",format=" ++ f) g <> Drive.mk p (f ++ ",format=" ++ g)
  /\ rendered_args (execSt (AddDrive (Drive.mk (p ++ ",format=" ++ f) g)) m) arch kvm
     = rendered_args (execSt (AddDrive (Drive.mk p (f ++ ",format=" ++ g))) m) arch kvm.
Proof.
  split.
  - intros H. injection H as H _.
    apply (f_equal String.length) in H.
    rewrite string_length_append in H. cbn in H. lia.
  - rewrite !rendered_args_closed, !AddDrive_exec. unfold ordered_args.
    cbn [Cores Memory cd vnc monitor drives ifaces set_drives].
    rewrite !drive_section_app. cbn [drive_section flat_map app].
    unfold drive_value. cbn [Drive.Path Drive.Format].
    now rewrite !append_assoc.
Qed.

(* ================================================================= *)
(** * The launch: what the caller can rely on *)

(** X9. On a host that spawns, [Start] cannot be held up: whatever the
    child and the background goroutine have done so far, at most two more
    steps of the caller make [Start] return, and it leaves the descriptor
    as it was. *)
Theorem Start_cannot_be_held_up (os : host) (arch : string) (kvm : bool)
    (m : Machine) (proc : Process) (sched : list action) (s : Launch) :
  os (evalSt (Start_command arch kvm) m) = inl proc ->
  run arch proc sched launch_init = Some s ->
  exists k r,
    (k <= 2)%nat
    /\ Start os (sched ++ repeat Foreground k) arch kvm m = (Some r, m).
Proof.
  intros Hos Hrun.
  pose proof (foreground_runs arch proc s) as F.
  destruct (fg s) as [| |r] eqn:Hfg.
  - destruct F as (s1 & Hs1 & Hfg1).
    pose proof (foreground_runs arch proc s1) as F1. rewrite Hfg1 in F1.
    destruct F1 as (s2 & r & Hs2 & Hfg2).
    exists 2%nat, r. split; [lia |].
    rewrite Start_closed, Hos, run_app, Hrun. cbn [repeat run].
    now rewrite Hs1, Hs2, Hfg2.
  - destruct F as (s1 & r & Hs1 & Hfg1).
    exists 1%nat, r. split; [lia |].
    rewrite Start_closed, Hos, run_app, Hrun. cbn [repeat run].
    now rewrite Hs1, Hfg1.
  - exists 0%nat, r. split; [lia |].
    rewrite Start_closed, Hos. cbn [repeat]. now rewrite app_nil_r, Hrun, Hfg.
Qed.

(** The theorem at the point where the child has just failed. *)
Lemma Start_cannot_be_held_up_witness :
  exists k r,
    (k <= 2)%nat
    /\ Start spawning_host ([ChildExits (Some exit_status_1)] ++ repeat Foreground k)
         "x86_64" false scenario_machine
       = (Some r, scenario_machine).
Proof.
  exact (Start_cannot_be_held_up spawning_host "x86_64" false scenario_machine
           (mkProcess 4242) [ChildExits (Some exit_status_1)]
           (state_after "x86_64" (mkProcess 4242) [ChildExits (Some exit_status_1)])
           eq_refl eq_refl).
Defined.

(** X10. After a spawn [Start] returns an error only for a child that has
    exited with an error, and then that error, wrapped: while the child
    runs, and after it has exited cleanly, [Start] returns the handle, also
    when the clean exit came before the caller looked. *)
Theorem error_only_for_failed_child (arch : string) (proc : Process)
    (sched : list action) (s : Launch) (r : result) :
  run arch proc sched launch_init = Some s ->
  fg s = FgReturned r ->
  match child s with
  | Running => r = (Some proc, None)
  | Exited None => r = (Some proc, None)
  | Exited (Some w) =>
      r = (Some proc, None) \/ r = (None, Some (fmt.Errorf_qemu arch w))
  end.
Proof.
  intros Hrun Hfg. apply reachable_invariant in Hrun.
  destruct Hrun as (Ifg & Ibg & Ich & _). rewrite Hfg in Ifg.
  destruct Ifg as [(_ & _ & ->) | (e & _ & Hrcv & ->)].
  - destruct (child s) as [|[w|]]; auto.
  - destruct (bg s) as [|v|].
    + destruct Ibg as [_ Hr]. rewrite Hr in Hrcv. discriminate.
    + destruct Ibg as (e' & _ & _ & _ & Hr). rewrite Hr in Hrcv. discriminate.
    + destruct Ibg as (w & Hch & _ & [[_ Hr] | (e' & -> & Hr)]).
      * rewrite Hr in Hrcv. discriminate.
      * rewrite Hch. rewrite Hr in Hrcv. right. congruence.
Qed.

(** The theorem on a child that exits cleanly before the caller wakes up:
    the handle is returned. *)
Lemma error_only_for_failed_child_witness :
  run "x86_64" (mkProcess 4242) clean_exit_schedule launch_init
  = Some (state_after "x86_64" (mkProcess 4242) clean_exit_schedule)
  /\ fg (state_after "x86_64" (mkProcess 4242) clean_exit_schedule)
     = FgReturned (Some (mkProcess 4242), None)
  /\ match child (state_after "x86_64" (mkProcess 4242) clean_exit_schedule) with
     | Running => (Some (mkProcess 4242), @None error) = (Some (mkProcess 4242), None)
     | Exited None => (Some (mkProcess 4242), @None error) = (Some (mkProcess 4242), None)
     | Exited (Some w) =>
         (Some (mkProcess 4242), @None error) = (Some (mkProcess 4242), None)
         \/ (Some (mkProcess 4242), @None error)
            = (None, Some (fmt.Errorf_qemu "x86_64" w))
     end.
Proof.
  split; [reflexivity |]. split; [reflexivity |].
  exact (error_only_for_failed_child "x86_64" (mkProcess 4242) clean_exit_schedule
           (state_after "x86_64" (mkProcess 4242) clean_exit_schedule)
           (Some (mkProcess 4242), None) eq_refl eq_refl).
Defined.

(** X11. When [Start] has returned the handle and the child exits with an
    error, the background goroutine never finishes: it is still in
    [cmd.Wait()] or it is at its send on [errc], and once it is at the send
    nothing in the launch can move any more, so it stays there. *)
Theorem late_failure_blocks_goroutine (arch : string) (proc : Process)
    (sched : list action) (s : Launch) (w : error) :
  run arch proc sched launch_init = Some s ->
  fg s = FgReturned (Some proc, None) ->
  child s = Exited (Some w) ->
  (bg s = BgWait \/ bg s = BgSend (Some (fmt.Errorf_qemu arch w)))
  /\ (bg s = BgSend (Some (fmt.Errorf_qemu arch w)) ->
      forall a, step arch proc a s = None).
Proof.
  intros Hrun Hfg Hch. apply reachable_invariant in Hrun.
  destruct Hrun as (Ifg & Ibg & _). rewrite Hfg in Ifg.
  assert (Hrcv : filter is_receive (log s) = []).
  { destruct Ifg as [(_ & Hr & _) | (e & _ & _ & He)]; [exact Hr | discriminate]. }
  split.
  - destruct (bg s) as [|v|].
    + now left.
    + destruct Ibg as (e & -> & He & _). rewrite Hch in He. injection He as <-.
      now right.
    + destruct Ibg as (w' & Hw' & _ & [[-> _] | (e & _ & Hr)]).
      * rewrite Hch in Hw'. discriminate.
      * rewrite Hr in Hrcv. discriminate.
  - intros Hbg a. unfold step. rewrite Hfg, Hbg, Hch. now destruct a.
Qed.

(** The theorem on a child that fails after the caller has returned. *)
Lemma late_failure_blocks_goroutine_witness :
  fg (state_after "x86_64" (mkProcess 4242) late_exit_schedule)
  = FgReturned (Some (mkProcess 4242), None)
  /\ (bg (state_after "x86_64" (mkProcess 4242) late_exit_schedule) = BgWait
      \/ bg (state_after "x86_64" (mkProcess 4242) late_exit_schedule)
         = BgSend (Some (fmt.Errorf_qemu "x86_64" exit_status_1))).
Proof.
  split; [reflexivity |].
  exact (proj1 (late_failure_blocks_goroutine "x86_64" (mkProcess 4242)
                  late_exit_schedule
                  (state_after "x86_64" (mkProcess 4242) late_exit_schedule)
                  exit_status_1 eq_refl eq_refl eq_refl)).
Defined.

(* ================================================================= *)
(** * From the calls to the command line *)

Lemma net_option (m : Machine) (arch : string) (kvm : bool) :
  with_flag "-net" (options (rendered_args m arch kvm))
  = match ifaces m with
    | [] => [("-net", Some "none")]
    | _ :: _ => []
    end.
Proof.
  rewrite with_flag_rendered by reflexivity.
  destruct (ifaces m), kvm, (is_set (cd m)), (is_set (vnc m)), (is_set (monitor m));
    cbn; rewrite ?app_nil_r; reflexivity.
Qed.

(** X12. The command line of a descriptor built by [NewMachine] and any
    sequence of operations: the sizing given to [NewMachine], the CD-ROM,
    display and control socket of the last call of each setter (none
    without a call, or when the last call gave the empty string), the
    drives and then the interfaces in the order they were attached;
    [-net none] is there exactly when no interface was attached. *)
Theorem built_rendering (ops : list operation) (cores : Z) (memory : N)
    (arch : string) (kvm : bool) :
  rendered_args (execSt (perform_all ops) (NewMachine cores memory)) arch kvm
  = (sizing_section cores memory
     ++ kvm_section kvm
     ++ cdrom_section (final_cd ops "")
     ++ drive_section (attached_drives ops)
     ++ network_section (attached_ifaces ops)
     ++ display_section (final_vnc ops "")
     ++ control_section (final_monitor ops ""))%list
  /\ with_flag "-net"
       (options (rendered_args (execSt (perform_all ops) (NewMachine cores memory))
                   arch kvm))
     = match attached_ifaces ops with
       | [] => [("-net", Some "none")]
       | _ :: _ => []
       end.
Proof.
  split.
  - rewrite rendered_args_closed, perform_all_closed. reflexivity.
  - rewrite net_option, perform_all_closed. reflexivity.
Qed.
